(** * Redirect checker (app.py): normalisation, HEAD/GET protocol,
      dispatcher and reporter.

    Python [str] values are sequences of Unicode code points; they are
    modelled as lists of code points.  HTTP traffic is an effect of
    [requests.head] / [requests.get]; [check_redirect] is embedded as a
    program over these two requests and interpreted against an arbitrary
    transport. *)

From Stdlib Require Import List ZArith NArith Bool Lia Arith.
From Stdlib Require Import Strings.Ascii Numbers.DecimalString.
From Stdlib Require Strings.String.
Import String.StringSyntax.
From Stdlib Require Import Sorting.Permutation.
Import ListNotations.

Set Implicit Arguments.
Local Open Scope string_scope.
Local Open Scope list_scope.

(* ===================================================================== *)
(** ** Python strings                                                     *)
(* ===================================================================== *)

Definition codepoint := N.
Definition str := list codepoint.

Definition str_eq_dec : forall a b : str, {a = b} + {a <> b} :=
  list_eq_dec N.eq_dec.

(** An ASCII literal of the source, as code points. *)
Definition lit (s : String.string) : str :=
  map N_of_ascii (String.list_ascii_of_string s).

(** [str(n)] for a Python [int], as used by an f-string field. *)
Definition str_of_int (z : Z) : str :=
  lit (NilZero.string_of_int (Z.to_int z)).

(** [Py_UNICODE_ISSPACE]: the code points [str.strip()] removes. *)
Definition isspace (c : codepoint) : bool :=
  (((0x09 <=? c) && (c <=? 0x0D)) || ((0x1C <=? c) && (c <=? 0x20))
   || (c =? 0x85) || (c =? 0xA0) || (c =? 0x1680)
   || ((0x2000 <=? c) && (c <=? 0x200A))
   || (c =? 0x2028) || (c =? 0x2029) || (c =? 0x202F) || (c =? 0x205F)
   || (c =? 0x3000))%N.

(** [chars] as a membership test, for [str.rstrip(chars)]. *)
Definition in_chars (chars : str) (c : codepoint) : bool :=
  existsb (N.eqb c) chars.

(** Left scan of CPython's [do_strip]: skip while the predicate holds. *)
Fixpoint lstrip_with (f : codepoint -> bool) (s : str) : str :=
  match s with
  | [] => []
  | c :: s' => if f c then lstrip_with f s' else s
  end.

(** Right scan of [do_strip], on the reversed sequence. *)
Definition rstrip_with (f : codepoint -> bool) (s : str) : str :=
  rev (lstrip_with f (rev s)).

(** [s.strip()] *)
Definition strip (s : str) : str :=
  rstrip_with isspace (lstrip_with isspace s).

(** [s.rstrip(chars)] *)
Definition rstrip (chars : str) (s : str) : str :=
  rstrip_with (in_chars chars) s.

(** [s.startswith(prefix)] *)
Fixpoint startswith (s prefix : str) {struct prefix} : bool :=
  match prefix, s with
  | [], _ => true
  | p :: prefix', c :: s' => (c =? p)%N && startswith s' prefix'
  | _ :: _, [] => false
  end.

(** [s.startswith((p1, p2, ...))] *)
Definition startswith_any (s : str) (prefixes : list str) : bool :=
  existsb (startswith s) prefixes.

(** [str.lower] on the ASCII range.  CPython consults the Unicode
    database for every other code point; that table is not part of the
    repository, so the development is parametric in [lower] and uses this
    instance to evaluate examples on ASCII URLs. *)
Definition ascii_lower_cp (c : codepoint) : codepoint :=
  (if (0x41 <=? c) && (c <=? 0x5A) then c + 32 else c)%N.

Definition ascii_lower (s : str) : str := map ascii_lower_cp s.

Definition slash : codepoint := 0x2F%N.

(* ===================================================================== *)
(** ** Normalizer (app.py, lines 32-35)                                   *)
(* ===================================================================== *)

Section Normalizer.

(** [str.lower] *)
Variable lower : str -> str.

(** [normalize(url)]; [None] and the empty string are the falsy
    arguments of [if not url]. *)
Definition normalize (url : option str) : str :=
  match url with
  | None => []
  | Some [] => []
  | Some u => rstrip (lit "/") (lower (strip u))
  end.

End Normalizer.

(** The wording of the contract: strip one trailing slash, again and
    again, until none remains. *)
Definition ends_with_slash (s : str) : bool :=
  match rev s with
  | c :: _ => (c =? slash)%N
  | [] => false
  end.

Fixpoint strip_slash_repeatedly (fuel : nat) (s : str) : str :=
  match fuel with
  | O => s
  | S fuel' =>
      if ends_with_slash s then strip_slash_repeatedly fuel' (removelast s)
      else s
  end.

Definition strip_all_trailing_slashes (s : str) : str :=
  strip_slash_repeatedly (length s) s.

(** No whitespace at either end. *)
Definition trimmed (s : str) : Prop :=
  match s with
  | [] => True
  | c :: _ => isspace c = false /\ isspace (last s c) = false
  end.

(* ===================================================================== *)
(** ** The [requests] interface                                           *)
(* ===================================================================== *)

Inductive Method := HEAD | GET.

(** The arguments of one [requests.head] / [requests.get] call. *)
Record call := Call {
  method : Method;
  call_url : str;
  allow_redirects : bool;
  timeout : Z
}.

(** The two attributes of [requests.Response] the checker reads. *)
Record Response := mkResponse {
  url : str;
  status_code : Z
}.

(** What a request can raise; [str(e)] is the message.
    [RequestException] is [requests.exceptions.RequestException], the
    class of the failures [requests] signals itself (connection,
    timeout, TLS, invalid URL).  [OtherException] is an exception of
    any class outside it: [requests] lets some through, such as
    urllib3's [LocationParseError] for the host of ['http://a..b']. *)
Inductive exn :=
| RequestException (msg : str)
| OtherException (msg : str).

Definition str_of_exn (e : exn) : str :=
  match e with
  | RequestException msg => msg
  | OtherException msg => msg
  end.

(** [isinstance(e, requests.exceptions.RequestException)] *)
Definition is_RequestException (e : exn) : bool :=
  match e with
  | RequestException _ => true
  | OtherException _ => false
  end.

(** What a call comes back with. *)
Inductive reply :=
| Answer (r : Response)
| Failure (e : exn).

(** Programs that issue HTTP calls, return or raise. *)
Inductive prog (A : Type) : Type :=
| Ret (a : A)
| Raise (e : exn)
| Request (c : call) (k : reply -> prog A).

Arguments Raise {A} e.

Fixpoint bind {A B} (p : prog A) (f : A -> prog B) : prog B :=
  match p with
  | Ret a => f a
  | Raise e => Raise e
  | Request c k => Request c (fun r => bind (k r) f)
  end.

(** [try: p  except requests.exceptions.RequestException as e: h e].
    The handler takes the exceptions of that class; any other goes on
    to the caller. *)
Fixpoint try_except {A} (p : prog A) (h : exn -> prog A) : prog A :=
  match p with
  | Ret a => Ret a
  | Raise e => if is_RequestException e then h e else Raise e
  | Request c k => Request c (fun r => try_except (k r) h)
  end.

Declare Scope prog_scope.
Delimit Scope prog_scope with prog.
Notation "x <- p ;; q" := (bind p (fun x => q))
  (at level 61, p at next level, right associativity) : prog_scope.
Notation "' pat <- p ;; q" := (bind p (fun x => match x with pat => q end))
  (at level 61, pat pattern, p at next level, right associativity) : prog_scope.

Definition perform (c : call) : prog Response :=
  Request c (fun r => match r with
                      | Answer resp => Ret resp
                      | Failure e => Raise e
                      end).

Definition requests_head (u : str) (redirects : bool) (t : Z) : prog Response :=
  perform (Call HEAD u redirects t).

Definition requests_get (u : str) (redirects : bool) (t : Z) : prog Response :=
  perform (Call GET u redirects t).

(* ===================================================================== *)
(** ** RedirectChecker (app.py, lines 15-45)                              *)
(* ===================================================================== *)

Definition TIMEOUT : Z := 10.
Definition MAX_WORKERS : nat := 15.

(** The tuple [check_redirect] returns, a row of the result frame with
    columns Source, Target, Status, Final URL. *)
Definition row : Type := str * option str * str * option str.

Definition Source (r : row) : str := let '(s, _, _, _) := r in s.
Definition Target (r : row) : option str := let '(_, t, _, _) := r in t.
Definition Status (r : row) : str := let '(_, _, st, _) := r in st.
Definition Final_URL (r : row) : option str := let '(_, _, _, f) := r in f.

(** The non-ASCII code points of the status literals. *)
Definition cross_mark : str := [0x274C%N].
Definition warning_sign : str := [0x26A0%N; 0xFE0F%N].
Definition check_mark : str := [0x2705%N].
Definition rightwards_arrow : str := [0x2192%N].

Definition status_http_error (status : Z) : str :=
  cross_mark ++ lit " HTTP Fehler " ++ str_of_int status.
Definition status_wrong_redirect (final_url : str) : str :=
  warning_sign ++ lit " Falsche Weiterleitung (" ++ rightwards_arrow
    ++ lit " " ++ final_url ++ lit ")".
Definition status_correct : str :=
  check_mark ++ lit " Korrekt weitergeleitet".
Definition status_error (e : exn) : str :=
  cross_mark ++ lit " Fehler: " ++ str_of_exn e.

Definition str_neqb (a b : str) : bool :=
  if str_eq_dec a b then false else true.

Section Checker.

Variable lower : str -> str.

Local Open Scope prog_scope.
Local Open Scope Z_scope.

Definition check_redirect (source : str) (target : option str) : prog row :=
  try_except
    (response <- requests_head source true TIMEOUT ;;
     let final_url := url response in
     let status := status_code response in
     '(final_url, status) <-
        (if (400 <=? status) || (status =? 0) then
           response <- requests_get source true TIMEOUT ;;
           Ret (url response, status_code response)
         else Ret (final_url, status)) ;;
     if 400 <=? status then
       Ret (source, target, status_http_error status, Some final_url)
     else if str_neqb (normalize lower (Some final_url))
                      (normalize lower target) then
       Ret (source, target, status_wrong_redirect final_url, Some final_url)
     else
       Ret (source, target, status_correct, Some final_url))
    (fun e => Ret (source, target, status_error e, None)).

End Checker.

(** The result categories of the data model, read back from the status
    text of a row: each is the literal prefix of one [return] statement. *)
Inductive StatusKind := Ok | WrongDestination | HttpError | TransportError.

Definition statusKind (r : row) : option StatusKind :=
  let s := Status r in
  if str_eq_dec s status_correct then Some Ok
  else if startswith s (warning_sign ++ lit " Falsche Weiterleitung (")
       then Some WrongDestination
  else if startswith s (cross_mark ++ lit " HTTP Fehler ") then Some HttpError
  else if startswith s (cross_mark ++ lit " Fehler: ") then Some TransportError
  else None.

(** The wording of the protocol, step 3 and 4: what the reply that counts
    is classified as, and the final URL recorded with it. *)
Definition classification (lower : str -> str) (target : option str)
    (final : reply) : StatusKind * option str :=
  match final with
  | Failure _ => (TransportError, None)
  | Answer r =>
      if (400 <=? status_code r)%Z then (HttpError, Some (url r))
      else if str_eq_dec (normalize lower (Some (url r)))
                         (normalize lower target)
           then (Ok, Some (url r))
           else (WrongDestination, Some (url r))
  end.

(** The HEAD outcome that sends the checker to GET. *)
Definition needs_fallback (head : reply) : bool :=
  match head with
  | Answer r => ((400 <=? status_code r) || (status_code r =? 0))%Z
  | Failure _ => false
  end.

(** A reply the checker copes with: a response, or a failure of the
    class its handler names. *)
Definition handled (r : reply) : Prop :=
  match r with
  | Answer _ => True
  | Failure e => is_RequestException e = true
  end.

(** The row a check returns, by the reply that counts. *)
Definition result_row (lower : str -> str) (source : str)
    (target : option str) (final : reply) : row :=
  match final with
  | Failure e => (source, target, status_error e, None)
  | Answer r =>
      if (400 <=? status_code r)%Z then
        (source, target, status_http_error (status_code r), Some (url r))
      else if str_neqb (normalize lower (Some (url r)))
                       (normalize lower target) then
        (source, target, status_wrong_redirect (url r), Some (url r))
      else (source, target, status_correct, Some (url r))
  end.

(* ===================================================================== *)
(** ** Running a program against a transport                              *)
(* ===================================================================== *)

Inductive outcome (A : Type) : Type :=
| Returned (a : A)
| Raised (e : exn).

Arguments Raised {A} e.

Definition event : Type := call * reply.

(** How a check ends, by the reply that counts: with the row of that
    reply, or with the exception the handler leaves alone. *)
Definition check_outcome (lower : str -> str) (source : str)
    (target : option str) (final : reply) : outcome row :=
  match final with
  | Answer _ => Returned (result_row lower source target final)
  | Failure e =>
      if is_RequestException e
      then Returned (result_row lower source target final)
      else Raised e
  end.

Section Transport.

(** The network: a state and the reply it gives to each call. *)
Variable W : Type.
Variable send : call -> W -> reply * W.

Fixpoint run {A} (p : prog A) (w : W) : outcome A * W * list event :=
  match p with
  | Ret a => (Returned a, w, [])
  | Raise e => (Raised e, w, [])
  | Request c k =>
      let (r, w1) := send c w in
      let '(o, w2, tr) := run (k r) w1 in
      (o, w2, (c, r) :: tr)
  end.

Definition outcome_of {A} (x : outcome A * W * list event) : outcome A :=
  fst (fst x).

Definition trace_of {A} (x : outcome A * W * list event) : list event :=
  snd x.

End Transport.

Arguments outcome_of {W A} x.
Arguments trace_of {W A} x.

(** One check against a transport: outcome, network state afterwards
    and the calls made with their replies. *)
Definition check (lower : str -> str) {W : Type}
    (send : call -> W -> reply * W) (source : str) (target : option str)
    (w : W) : outcome row * W * list event :=
  run send (check_redirect lower source target) w.

(** The reply that counts for a check: the last one it received. *)
Definition final_reply (tr : list event) : option reply :=
  match rev tr with
  | (_, r) :: _ => Some r
  | [] => None
  end.

Definition head_call (source : str) : call := Call HEAD source true TIMEOUT.
Definition get_call (source : str) : call := Call GET source true TIMEOUT.

(* ===================================================================== *)
(** ** Dispatcher (app.py, lines 63-77)                                   *)
(* ===================================================================== *)

(** A submitted future: the pair it is keyed to in the [futures] dict,
    what is left of its [check_redirect] call, and whether
    [as_completed] has handed it out already. *)
Record future := Future {
  pair : str * option str;
  body : prog row;
  yielded : bool
}.

Section Dispatcher.

Variable lower : str -> str.
Variable W : Type.
Variable send : call -> W -> reply * W.

Record state := State {
  world : W;
  futures : list future;
  results : list row;
  completed : nat;
  raised : option exn
}.

(** [executor.submit(check_redirect, s, t)] for every pair, before the
    loop starts. *)
Definition submit (p : str * option str) : future :=
  Future p (check_redirect lower (fst p) (snd p)) false.

Definition init (w : W) (pairs : list (str * option str)) : state :=
  State w (map submit pairs) [] 0 None.

(** One step of the run.  A worker thread performs the next HTTP call
    of some future; the main thread takes a finished future out of
    [as_completed] and appends [future.result()], which re-raises
    what the call raised.  Workers interleave freely, so every
    schedule of a pool of [MAX_WORKERS] threads is a path here.  The
    progress widgets the loop updates are display only and left out. *)
Inductive step : state -> state -> Prop :=
| step_request w fs1 fs2 pr c k res n exc r w' :
    send c w = (r, w') ->
    step (State w (fs1 ++ Future pr (Request c k) false :: fs2) res n exc)
         (State w' (fs1 ++ Future pr (k r) false :: fs2) res n exc)
| step_result w fs1 fs2 pr x res n :
    step (State w (fs1 ++ Future pr (Ret x) false :: fs2) res n None)
         (State w (fs1 ++ Future pr (Ret x) true :: fs2)
                (res ++ [x]) (S n) None)
| step_reraise w fs1 fs2 pr e res n :
    step (State w (fs1 ++ Future pr (Raise e) false :: fs2) res n None)
         (State w (fs1 ++ Future pr (Raise e) true :: fs2)
                res n (Some e)).

Inductive steps : nat -> state -> state -> Prop :=
| steps_O st : steps 0 st st
| steps_S n st1 st2 st3 :
    steps n st1 st2 -> step st2 st3 -> steps (S n) st1 st3.

Definition reachable (st0 st : state) : Prop := exists n, steps n st0 st.

(** The [for] loop has run to its end: every future was handed out
    and nothing was raised. *)
Definition finished (st : state) : Prop :=
  raised st = None /\ Forall (fun f => yielded f = true) (futures st).

End Dispatcher.

(* ===================================================================== *)
(** ** Reporter (app.py, lines 82-85)                                     *)
(* ===================================================================== *)

(** The rows of [result_df] whose Status starts with one of the two
    prefixes of line 85: the cross mark, or the warning sign with its
    variation selector. *)
Definition broken_df (result_df : list row) : list row :=
  filter (fun r => startswith_any (Status r) [cross_mark; warning_sign])
         result_df.

Definition is_Ok (r : row) : bool :=
  match statusKind r with
  | Some Ok => true
  | _ => false
  end.

(* ===================================================================== *)
(** ** A scripted transport, for concrete runs                            *)
(* ===================================================================== *)

(** The replies still to be given, in order; once they run out every
    call times out. *)
Definition script := list reply.

Definition timed_out : reply :=
  Failure (RequestException (lit "timed out")).

(** What [requests.head('http://a..b')] raises: urllib3's
    [LocationParseError], not a [RequestException]. *)
Definition malformed_url : str := lit "http://a..b".

Definition parse_error : reply :=
  Failure (OtherException
             (lit "Failed to parse: 'a..b', label empty or too long")).

Definition scripted (c : call) (w : script) : reply * script :=
  match w with
  | r :: w' => (r, w')
  | [] => (timed_out, [])
  end.

(** The URLs of the scenarios. *)
Definition old_page : str := lit "https://old.example.com/page".
Definition new_page : str := lit "https://new.example.com/page".
Definition new_page_slash : str := lit "https://new.example.com/page/".
Definition new_other : str := lit "https://new.example.com/other".

(** The result of a check under the scripted transport. *)
Definition check_scripted (source : str) (target : option str) (w : script)
    : outcome row :=
  outcome_of (check ascii_lower scripted source target w).

(* ===================================================================== *)
(** ** Predicates used in the statements                                  *)
(* ===================================================================== *)

(** A row some check returned. *)
Definition produced (lower : str -> str) {W : Type}
    (send : call -> W -> reply * W) (r : row) : Prop :=
  exists source target w,
    outcome_of (check lower send source target w) = Returned r.


(** Whatever the replies, a row the program returns is for the pair. *)
Fixpoint row_for (pr : str * option str) (p : prog row) : Prop :=
  match p with
  | Ret r => Source r = fst pr /\ Target r = snd pr
  | Raise _ => True
  | Request _ k => forall r, row_for pr (k r)
  end.

(** The program has come to a result. *)
Definition returned {A} (p : prog A) : bool :=
  match p with
  | Ret _ => true
  | _ => false
  end.

(** The future was handed out and gave a row. *)
Definition collected (f : future) : bool :=
  yielded f && returned (body f).



(** The pair a row is about. *)
Definition row_pair (r : row) : str * option str := (Source r, Target r).

(** What holds of the dispatcher's state all along a run over [pairs]:
    the futures are those of the pairs, a row a future returns is for
    its pair, the counter is the number of rows collected, the rows
    collected are those of the futures handed out with a row, and as
    long as nothing was raised every future handed out gave a row. *)
Definition loop_invariant {W : Type} (pairs : list (str * option str))
    (st : state W) : Prop :=
  map pair (futures st) = pairs /\
  Forall (fun f => row_for (pair f) (body f)) (futures st) /\
  completed st = length (results st) /\
  Permutation (map row_pair (results st))
              (map pair (filter collected (futures st))) /\
  (raised st = None ->
   Forall (fun f => yielded f = true -> returned (body f) = true)
          (futures st)).


(* ===================================================================== *)
(** ** Column detection and pairs (app.py, lines 51-60)                   *)
(* ===================================================================== *)

(** [x in l] on a list of strings. *)
Definition contains (l : list str) (x : str) : bool :=
  existsb (fun y => if str_eq_dec y x then true else false) l.

(** [l.index(x)]: the first position of [x]; [None] is the
    [ValueError] of an absent value. *)
Fixpoint index (l : list str) (x : str) : option nat :=
  match l with
  | [] => None
  | y :: l' => if str_eq_dec y x then Some O else option_map S (index l' x)
  end.

(** What lines 52-57 end in: the error message, the two column names,
    or an exception out of [index] or of the subscript. *)
Inductive selection :=
| MissingColumns
| Selected (source_col target_col : str)
| Crashed.

Section Columns.

Variable lower : str -> str.

Definition select_columns (columns : list str) : selection :=
  let cols := map lower columns in
  if negb (contains cols (lit "source")) || negb (contains cols (lit "target"))
  then MissingColumns
  else
    match index cols (lit "source") with
    | None => Crashed
    | Some i =>
        match nth_error columns i with
        | None => Crashed
        | Some source_col =>
            match index cols (lit "target") with
            | None => Crashed
            | Some j =>
                match nth_error columns j with
                | None => Crashed
                | Some target_col => Selected source_col target_col
                end
            end
        end
    end.

End Columns.

(** The two chosen columns of the frame, row by row; [None] is a
    missing cell (NaN). *)
Definition sheet : Type := list (option str * option str).

(** [Series.dropna()]: the present values, in order. *)
Fixpoint dropna (col : list (option str)) : list str :=
  match col with
  | [] => []
  | Some v :: col' => v :: dropna col'
  | None :: col' => dropna col'
  end.

(** [list(zip(df[source_col].dropna(), df[target_col].dropna()))] *)
Definition make_pairs (df : sheet) : list (str * str) :=
  combine (dropna (map fst df)) (dropna (map snd df)).

(** The arguments of [executor.submit(check_redirect, s, t)] for a
    pair: the target is a present cell. *)
Definition submitted (p : str * str) : str * option str :=
  (fst p, Some (snd p)).

(** The rows of the sheet that have both cells, in order. *)
Fixpoint complete_rows (df : sheet) : list (str * str) :=
  match df with
  | [] => []
  | (Some s, Some t) :: df' => (s, t) :: complete_rows df'
  | _ :: df' => complete_rows df'
  end.

(** A row with both cells. *)
Definition filled (p : str * str) : option str * option str :=
  (Some (fst p), Some (snd p)).

(** Both cells present or both missing. *)
Definition cells_agree (r : option str * option str) : Prop :=
  match r with
  | (Some _, Some _) => True
  | (None, None) => True
  | _ => False
  end.

(* ===================================================================== *)
(** ** Result display (app.py, lines 87-92)                               *)
(* ===================================================================== *)

(** The success message, or the warning with its count and the table
    of broken rows. *)
Inductive report :=
| AllCorrect
| BrokenFound (count : nat) (table : list row).

Definition show_result (result_df : list row) : report :=
  let broken := broken_df result_df in
  match broken with
  | [] => AllCorrect
  | _ :: _ => BrokenFound (length broken) broken
  end.

(* ===================================================================== *)
(** ** A network without state, for concrete runs                         *)
(* ===================================================================== *)

(** Every URL answers 200 at its own address. *)
Definition no_redirect (c : call) (w : unit) : reply * unit :=
  (Answer (mkResponse (call_url c) 200), tt).



(** The row a check comes to when the reply to a call does not depend
    on the state of the network; [answer] is that reply. *)
Definition expected_row (lower : str -> str) (answer : call -> reply)
    (p : str * option str) : row :=
  let h := answer (head_call (fst p)) in
  if needs_fallback h
  then result_row lower (fst p) (snd p) (answer (get_call (fst p)))
  else result_row lower (fst p) (snd p) h.

(** How the check of a pair ends when the reply to a call does not
    depend on the state of the network. *)
Definition expected_outcome (lower : str -> str) (answer : call -> reply)
    (p : str * option str) : outcome row :=
  let h := answer (head_call (fst p)) in
  if needs_fallback h
  then check_outcome lower (fst p) (snd p) (answer (get_call (fst p)))
  else check_outcome lower (fst p) (snd p) h.

(* ===================================================================== *)
(** * Properties                                                          *)
(* ===================================================================== *)

Unset Implicit Arguments.

(** ** Stripping *)

Lemma lstrip_with_split (f : codepoint -> bool) (s : str) :
  exists l, s = l ++ lstrip_with f s /\ forallb f l = true.
Proof.
  induction s as [|c s IH]; simpl.
  - exists []. split; reflexivity.
  - destruct (f c) eqn:Hc.
    + destruct IH as [l [Hs Hl]].
      exists (c :: l). simpl. rewrite Hc, Hl. split; [congruence | reflexivity].
    + exists []. split; reflexivity.
Qed.

Lemma lstrip_with_head (f : codepoint -> bool) (s : str) :
  match lstrip_with f s with
  | [] => True
  | c :: _ => f c = false
  end.
Proof.
  induction s as [|c s IH]; simpl; [exact I|].
  destruct (f c) eqn:Hc; [exact IH | exact Hc].
Qed.

Lemma lstrip_with_length (f : codepoint -> bool) (s : str) :
  (length (lstrip_with f s) <= length s)%nat.
Proof.
  induction s as [|c s IH]; simpl; [lia|].
  destruct (f c); simpl; lia.
Qed.

Lemma lstrip_with_fixed (f : codepoint -> bool) (s : str) :
  lstrip_with f s = s <->
  match s with [] => True | c :: _ => f c = false end.
Proof.
  destruct s as [|c s]; simpl; [tauto|].
  destruct (f c) eqn:Hc; split; intros H; try congruence.
  pose proof (lstrip_with_length f s) as Hlen.
  rewrite H in Hlen. simpl in Hlen. lia.
Qed.

Lemma lstrip_with_idem (f : codepoint -> bool) (s : str) :
  lstrip_with f (lstrip_with f s) = lstrip_with f s.
Proof.
  apply lstrip_with_fixed. apply lstrip_with_head.
Qed.

Lemma rstrip_with_split (f : codepoint -> bool) (s : str) :
  exists r, s = rstrip_with f s ++ r /\ forallb f r = true.
Proof.
  unfold rstrip_with.
  destruct (lstrip_with_split f (rev s)) as [l [Hs Hl]].
  exists (rev l). split.
  - rewrite <- rev_app_distr, <- Hs, rev_involutive. reflexivity.
  - rewrite forallb_forall in *. intros x Hx. apply Hl.
    apply in_rev. exact Hx.
Qed.

Lemma rstrip_with_idem (f : codepoint -> bool) (s : str) :
  rstrip_with f (rstrip_with f s) = rstrip_with f s.
Proof.
  unfold rstrip_with. rewrite rev_involutive, lstrip_with_idem. reflexivity.
Qed.

Lemma rstrip_with_last (f : codepoint -> bool) (s : str) (d : codepoint) :
  rstrip_with f s = [] \/ f (last (rstrip_with f s) d) = false.
Proof.
  unfold rstrip_with.
  pose proof (lstrip_with_head f (rev s)) as H.
  destruct (lstrip_with f (rev s)) as [|c t]; [left; reflexivity|].
  right. simpl. rewrite last_last. exact H.
Qed.

(** Stripping on the right leaves the left end as it was. *)
Lemma lstrip_rstrip_fixed (f g : codepoint -> bool) (s : str) :
  lstrip_with f s = s ->
  lstrip_with f (rstrip_with g s) = rstrip_with g s.
Proof.
  intros H. apply lstrip_with_fixed. apply lstrip_with_fixed in H.
  destruct (rstrip_with_split g s) as [r [Hs _]].
  destruct (rstrip_with g s) as [|c v]; [exact I|].
  rewrite Hs in H. exact H.
Qed.

Lemma strip_split (s : str) :
  exists l r, s = l ++ strip s ++ r /\
              forallb isspace l = true /\ forallb isspace r = true.
Proof.
  unfold strip.
  destruct (lstrip_with_split isspace s) as [l [Hs Hl]].
  destruct (rstrip_with_split isspace (lstrip_with isspace s)) as [r [Ht Hr]].
  exists l, r. split; [|split; assumption].
  rewrite <- Ht. exact Hs.
Qed.

Lemma strip_trimmed (s : str) : trimmed (strip s).
Proof.
  unfold trimmed.
  pose proof (lstrip_rstrip_fixed isspace isspace (lstrip_with isspace s)
                (lstrip_with_idem isspace s)) as Hl.
  apply lstrip_with_fixed in Hl. fold (strip s) in Hl.
  destruct (strip s) as [|c t] eqn:E; [exact I|].
  split; [exact Hl|].
  destruct (rstrip_with_last isspace (lstrip_with isspace s) c) as [H|H];
    fold (strip s) in H; rewrite E in H; [discriminate | exact H].
Qed.

Lemma strip_fixed (s : str) :
  lstrip_with isspace s = s -> rstrip_with isspace s = s -> strip s = s.
Proof.
  intros Hl Hr. unfold strip. rewrite Hl. exact Hr.
Qed.

(** ** Trailing slashes *)

Lemma in_chars_slash (c : codepoint) :
  in_chars (lit "/") c = (c =? slash)%N.
Proof.
  unfold in_chars, lit. simpl. apply orb_false_r.
Qed.

Lemma ends_with_slash_snoc (s : str) (c : codepoint) :
  ends_with_slash (s ++ [c]) = (c =? slash)%N.
Proof.
  unfold ends_with_slash. rewrite rev_app_distr. reflexivity.
Qed.

Lemma rstrip_slash_snoc (s : str) (c : codepoint) :
  rstrip (lit "/") (s ++ [c]) =
  if (c =? slash)%N then rstrip (lit "/") s else s ++ [c].
Proof.
  unfold rstrip, rstrip_with. rewrite rev_app_distr.
  change (rev [c] ++ rev s) with (c :: rev s). cbn [lstrip_with].
  rewrite in_chars_slash. destruct (c =? slash)%N; [reflexivity|].
  cbn [rev]. rewrite rev_involutive. reflexivity.
Qed.

Lemma strip_slash_repeatedly_rstrip (fuel : nat) (s : str) :
  (length s <= fuel)%nat ->
  strip_slash_repeatedly fuel s = rstrip (lit "/") s.
Proof.
  revert s. induction fuel as [|fuel IH]; intros s Hlen.
  - destruct s; [reflexivity | simpl in Hlen; lia].
  - destruct s as [|a s'] using rev_ind; [reflexivity|].
    simpl. rewrite ends_with_slash_snoc, rstrip_slash_snoc.
    destruct (a =? slash)%N; [|reflexivity].
    rewrite removelast_last. apply IH.
    rewrite length_app in Hlen. simpl in Hlen. lia.
Qed.

Lemma all_slashes_repeat (r : str) :
  forallb (in_chars (lit "/")) r = true -> r = repeat slash (length r).
Proof.
  induction r as [|c r IH]; cbn [forallb length repeat]; intros H;
    [reflexivity|].
  apply andb_true_iff in H. destruct H as [Hc Hr].
  rewrite in_chars_slash in Hc. apply N.eqb_eq in Hc.
  rewrite <- IH by exact Hr. congruence.
Qed.

Lemma rstrip_slash_split (s : str) :
  exists n, s = rstrip (lit "/") s ++ repeat slash n.
Proof.
  destruct (rstrip_with_split (in_chars (lit "/")) s) as [r [Hs Hr]].
  exists (length r). rewrite <- all_slashes_repeat by exact Hr. exact Hs.
Qed.

Lemma rstrip_slash_no_trailing_slash (s : str) :
  ends_with_slash (rstrip (lit "/") s) = false.
Proof.
  unfold ends_with_slash, rstrip, rstrip_with. rewrite rev_involutive.
  pose proof (lstrip_with_head (in_chars (lit "/")) (rev s)) as H.
  destruct (lstrip_with (in_chars (lit "/")) (rev s)) as [|c t];
    [reflexivity|].
  rewrite in_chars_slash in H. exact H.
Qed.

Lemma rstrip_slash_idem (s : str) :
  rstrip (lit "/") (rstrip (lit "/") s) = rstrip (lit "/") s.
Proof. apply rstrip_with_idem. Qed.

(** ** Normalizer *)

Lemma normalize_cons (lower : str -> str) (c : codepoint) (s : str) :
  normalize lower (Some (c :: s)) = rstrip (lit "/") (lower (strip (c :: s))).
Proof. reflexivity. Qed.

(** C2. [normalize] gives the empty string for an absent or empty
    argument.  For a non-empty string [c :: s] it trims the whitespace
    at both ends (the string is [l ++ t ++ r] with [l], [r] whitespace
    and [t] starting and ending with none), lower-cases the trimmed
    string, and removes every trailing slash of that: what is cut off is
    a run of slashes, the result ends with no slash, and it is what
    stripping one slash again and again arrives at. *)
Theorem normalize_contract (lower : str -> str) :
  normalize lower None = [] /\
  normalize lower (Some []) = [] /\
  forall (c : codepoint) (s : str),
  exists (l t r : str) (n : nat),
    c :: s = l ++ t ++ r /\
    forallb isspace l = true /\ forallb isspace r = true /\ trimmed t /\
    lower t = normalize lower (Some (c :: s)) ++ repeat slash n /\
    ends_with_slash (normalize lower (Some (c :: s))) = false /\
    normalize lower (Some (c :: s)) = strip_all_trailing_slashes (lower t).
Proof.
  split; [reflexivity|]. split; [reflexivity|].
  intros c s.
  destruct (strip_split (c :: s)) as [l [r [Hs [Hl Hr]]]].
  destruct (rstrip_slash_split (lower (strip (c :: s)))) as [n Hn].
  exists l, (strip (c :: s)), r, n.
  rewrite normalize_cons.
  split; [exact Hs|]. split; [exact Hl|]. split; [exact Hr|].
  split; [apply strip_trimmed|]. split; [exact Hn|].
  split; [apply rstrip_slash_no_trailing_slash|].
  unfold strip_all_trailing_slashes.
  symmetry. apply strip_slash_repeatedly_rstrip. lia.
Qed.

(** C3, as stated, fails: [normalize("a /")] is ["a "], and normalising
    that again trims the blank the first pass left at the end. *)
Lemma normalize_not_idempotent :
  normalize ascii_lower (Some (normalize ascii_lower (Some (lit "a /"))))
  <> normalize ascii_lower (Some (lit "a /")).
Proof. vm_compute. discriminate. Qed.

(** The same for any [str.lower] that leaves these two lower-case
    strings as they are. *)
Lemma normalize_not_idempotent_any_lower (lower : str -> str) :
  lower (lit "a /") = lit "a /" -> lower (lit "a") = lit "a" ->
  normalize lower (Some (lit "a /")) = lit "a " /\
  normalize lower (Some (lit "a ")) = lit "a".
Proof.
  intros H1 H2. split.
  - change (normalize lower (Some (lit "a /")))
      with (rstrip (lit "/") (lower (strip (lit "a /")))).
    replace (strip (lit "a /")) with (lit "a /") by reflexivity.
    rewrite H1. reflexivity.
  - change (normalize lower (Some (lit "a ")))
      with (rstrip (lit "/") (lower (strip (lit "a ")))).
    replace (strip (lit "a ")) with (lit "a") by reflexivity.
    rewrite H2. reflexivity.
Qed.

Lemma normalize_no_leading_space (lower : str -> str) :
  (forall s, lstrip_with isspace s = s ->
             lstrip_with isspace (lower s) = lower s) ->
  forall x, lstrip_with isspace (normalize lower x) = normalize lower x.
Proof.
  intros Hhead [[|c s]|]; try reflexivity.
  rewrite normalize_cons. apply lstrip_rstrip_fixed. apply Hhead.
  unfold strip. apply lstrip_rstrip_fixed. apply lstrip_with_idem.
Qed.

(** C3, amended. [normalize] leaves its own result unchanged whenever
    that result has no whitespace at its end.  Of [str.lower] this uses
    that it maps any initial part of its output to itself and puts no
    whitespace in front of a string that has none there. *)
Theorem normalize_idempotent_without_trailing_space
    (lower : str -> str) (x : option str) :
  (forall s p q, lower s = p ++ q -> lower p = p) ->
  (forall s, lstrip_with isspace s = s ->
             lstrip_with isspace (lower s) = lower s) ->
  rstrip_with isspace (normalize lower x) = normalize lower x ->
  normalize lower (Some (normalize lower x)) = normalize lower x.
Proof.
  intros Hfix Hhead Hend.
  pose proof (normalize_no_leading_space lower Hhead x) as Hbeg.
  destruct x as [[|c s]|]; try reflexivity.
  rewrite normalize_cons in *.
  set (u := lower (strip (c :: s))) in *.
  destruct (rstrip (lit "/") u) as [|d v] eqn:E; [reflexivity|].
  rewrite normalize_cons, strip_fixed by assumption.
  rewrite <- E.
  destruct (rstrip_slash_split u) as [n Hn].
  rewrite (Hfix _ _ _ Hn). apply rstrip_slash_idem.
Qed.

(** The ASCII instance of [str.lower] has the two properties used. *)

Lemma ascii_lower_cp_idem (c : codepoint) :
  ascii_lower_cp (ascii_lower_cp c) = ascii_lower_cp c.
Proof.
  unfold ascii_lower_cp.
  destruct ((0x41 <=? c)%N && (c <=? 0x5A)%N) eqn:E; [|rewrite E; reflexivity].
  apply andb_true_iff in E. destruct E as [E1 E2].
  apply N.leb_le in E1, E2.
  replace (c + 32 <=? 0x5A)%N with false by (symmetry; apply N.leb_gt; lia).
  rewrite andb_false_r. reflexivity.
Qed.

Lemma ascii_lower_cp_isspace (c : codepoint) :
  isspace c = false -> isspace (ascii_lower_cp c) = false.
Proof.
  intros H. unfold ascii_lower_cp.
  destruct ((0x41 <=? c)%N && (c <=? 0x5A)%N) eqn:E; [|exact H].
  apply andb_true_iff in E. destruct E as [E1 E2].
  apply N.leb_le in E1, E2. unfold isspace.
  replace (c + 32 <=? 0x0D)%N with false by (symmetry; apply N.leb_gt; lia).
  replace (c + 32 <=? 0x20)%N with false by (symmetry; apply N.leb_gt; lia).
  replace (0x2000 <=? c + 32)%N with false by (symmetry; apply N.leb_gt; lia).
  repeat match goal with
         | |- context [(c + 32 =? ?k)%N] =>
             replace (c + 32 =? k)%N with false
               by (symmetry; apply N.eqb_neq; lia)
         end.
  rewrite !andb_false_r. reflexivity.
Qed.

Lemma ascii_lower_fixes_output (s p q : str) :
  ascii_lower s = p ++ q -> ascii_lower p = p.
Proof.
  unfold ascii_lower. intros H.
  apply map_eq_app in H. destruct H as [p' [q' [_ [Hp _]]]].
  rewrite <- Hp, map_map. apply map_ext. apply ascii_lower_cp_idem.
Qed.

Lemma ascii_lower_keeps_head (s : str) :
  lstrip_with isspace s = s ->
  lstrip_with isspace (ascii_lower s) = ascii_lower s.
Proof.
  intros H. apply lstrip_with_fixed. apply lstrip_with_fixed in H.
  destruct s as [|c s]; [exact I|].
  apply ascii_lower_cp_isspace. exact H.
Qed.

Lemma normalize_idempotent_witness :
  let x := Some (lit "  HTTPS://New.Example.com/Page//  ") in
  rstrip_with isspace (normalize ascii_lower x) = normalize ascii_lower x /\
  normalize ascii_lower (Some (normalize ascii_lower x))
  = normalize ascii_lower x.
Proof.
  intros x. split; [vm_compute; reflexivity|].
  apply (normalize_idempotent_without_trailing_space ascii_lower x).
  - exact ascii_lower_fixes_output.
  - exact ascii_lower_keeps_head.
  - vm_compute. reflexivity.
Defined.

(** ** RedirectChecker *)

Section CheckerProperties.

Variable lower : str -> str.
Variable W : Type.
Variable send : call -> W -> reply * W.

(** The whole behaviour of one check: HEAD, then GET exactly when
    [needs_fallback], then the end the last reply brings. *)
Lemma run_check_redirect (source : str) (target : option str) (w : W) :
  run send (check_redirect lower source target) w =
  let (h, w1) := send (head_call source) w in
  if needs_fallback h then
    let (g, w2) := send (get_call source) w1 in
    (check_outcome lower source target g, w2,
     [(head_call source, h); (get_call source, g)])
  else
    (check_outcome lower source target h, w1,
     [(head_call source, h)]).
Proof.
  unfold check_redirect, requests_head, requests_get, perform.
  fold (head_call source). fold (get_call source).
  cbn [try_except bind run].
  destruct (send (head_call source) w) as [h w1].
  destruct h as [r|e];
    cbn [needs_fallback try_except bind run check_outcome];
    [|destruct e; reflexivity].
  destruct ((400 <=? status_code r)%Z || (status_code r =? 0)%Z) eqn:Hfb.
  - cbn [try_except bind run].
    destruct (send (get_call source) w1) as [g w2].
    destruct g as [r2|e2];
      cbn [try_except bind run check_outcome result_row url status_code];
      [|destruct e2; reflexivity].
    destruct (400 <=? status_code r2)%Z; cbn [try_except bind run];
      [reflexivity|].
    destruct (str_neqb _ _); reflexivity.
  - cbn [try_except bind run result_row].
    destruct (400 <=? status_code r)%Z; cbn [try_except bind run];
      [reflexivity|].
    destruct (str_neqb _ _); reflexivity.
Qed.

End CheckerProperties.

(** ** Status text and result category *)

Ltac status_text :=
  unfold statusKind, Status, status_http_error, status_wrong_redirect,
    status_correct, status_error, cross_mark, warning_sign, check_mark,
    rightwards_arrow, lit;
  cbn [String.list_ascii_of_string map N_of_ascii app].

Lemma statusKind_http_error (s : str) (t : option str) (code : Z)
    (f : option str) :
  statusKind (s, t, status_http_error code, f) = Some HttpError.
Proof.
  status_text.
  destruct (str_eq_dec _ _) as [E|_]; [discriminate E|]. reflexivity.
Qed.

Lemma statusKind_wrong_redirect (s : str) (t : option str) (u : str)
    (f : option str) :
  statusKind (s, t, status_wrong_redirect u, f) = Some WrongDestination.
Proof.
  status_text.
  destruct (str_eq_dec _ _) as [E|_]; [discriminate E|]. reflexivity.
Qed.

Lemma statusKind_correct (s : str) (t f : option str) :
  statusKind (s, t, status_correct, f) = Some Ok.
Proof.
  unfold statusKind, Status.
  destruct (str_eq_dec _ _) as [_|N]; [reflexivity | contradiction N; reflexivity].
Qed.

Lemma statusKind_error (s : str) (t : option str) (e : exn)
    (f : option str) :
  statusKind (s, t, status_error e, f) = Some TransportError.
Proof.
  status_text.
  destruct (str_eq_dec _ _) as [E|_]; [discriminate E|]. reflexivity.
Qed.

(** The row the code builds carries the category and the final URL the
    protocol's wording gives. *)
Lemma result_row_classification (lower : str -> str) (s : str)
    (t : option str) (final : reply) :
  statusKind (result_row lower s t final)
  = Some (fst (classification lower t final)) /\
  Final_URL (result_row lower s t final) = snd (classification lower t final).
Proof.
  destruct final as [r|e]; cbn [result_row classification].
  - destruct (400 <=? status_code r)%Z.
    + split; [apply statusKind_http_error | reflexivity].
    + unfold str_neqb.
      destruct (str_eq_dec _ _).
      * split; [apply statusKind_correct | reflexivity].
      * split; [apply statusKind_wrong_redirect | reflexivity].
  - split; [apply statusKind_error | reflexivity].
Qed.

Lemma result_row_source_target (lower : str -> str) (s : str)
    (t : option str) (final : reply) :
  Source (result_row lower s t final) = s /\
  Target (result_row lower s t final) = t.
Proof.
  destruct final as [r|e]; cbn [result_row]; [|split; reflexivity].
  destruct (400 <=? status_code r)%Z; [split; reflexivity|].
  destruct (str_neqb _ _); split; reflexivity.
Qed.

Lemma needs_fallback_iff (h : reply) :
  needs_fallback h = true <->
  exists r, h = Answer r /\ (400 <= status_code r \/ status_code r = 0)%Z.
Proof.
  destruct h as [r|e]; cbn [needs_fallback].
  - rewrite orb_true_iff, Z.leb_le, Z.eqb_eq. split.
    + intros H. exists r. split; [reflexivity | exact H].
    + intros [r' [E H]]. injection E as ->. exact H.
  - split; [discriminate|]. intros [r [E _]]. discriminate E.
Qed.

Lemma check_outcome_handled (lower : str -> str) (s : str)
    (t : option str) (final : reply) :
  handled final ->
  check_outcome lower s t final = Returned (result_row lower s t final).
Proof.
  destruct final as [r|e]; cbn [handled check_outcome]; [reflexivity|].
  intros ->. reflexivity.
Qed.

Lemma check_outcome_returned (lower : str -> str) (s : str)
    (t : option str) (final : reply) (r : row) :
  check_outcome lower s t final = Returned r ->
  handled final /\ r = result_row lower s t final.
Proof.
  destruct final as [resp|e]; cbn [handled check_outcome].
  - intros H. injection H as <-. split; [exact I | reflexivity].
  - destruct (is_RequestException e); [|discriminate].
    intros H. injection H as <-. split; reflexivity.
Qed.

Lemma check_outcome_raised (lower : str -> str) (s : str)
    (t : option str) (final : reply) (e : exn) :
  check_outcome lower s t final = Raised e ->
  final = Failure e /\ is_RequestException e = false.
Proof.
  destruct final as [resp|e']; cbn [check_outcome]; [discriminate|].
  destruct (is_RequestException e') eqn:E; [discriminate|].
  intros H. injection H as <-. split; [reflexivity | exact E].
Qed.

Lemma final_reply_In (tr : list event) (r : reply) :
  final_reply tr = Some r -> exists c, In (c, r) tr.
Proof.
  unfold final_reply. intros H.
  destruct (rev tr) as [|[c r'] l] eqn:E; [discriminate|].
  injection H as ->. exists c. apply (proj2 (in_rev tr (c, r))).
  rewrite E. left. reflexivity.
Qed.

Section CheckerClaims.

Variable lower : str -> str.
Variable W : Type.
Variable send : call -> W -> reply * W.

(** Every check ends as the last reply it received has it end. *)
Lemma check_redirect_result (source : str) (target : option str) (w : W) :
  exists final,
    final_reply (trace_of (check lower send source target w)) = Some final /\
    outcome_of (check lower send source target w)
    = check_outcome lower source target final.
Proof.
  unfold check. rewrite run_check_redirect.
  destruct (send (head_call source) w) as [h w1].
  destruct (needs_fallback h).
  - destruct (send (get_call source) w1) as [g w2].
    exists g. split; reflexivity.
  - exists h. split; reflexivity.
Qed.

(** A row a check returns is the row of its last reply. *)
Lemma check_redirect_returned (source : str) (target : option str) (w : W)
    (r : row) :
  outcome_of (check lower send source target w) = Returned r ->
  exists final,
    final_reply (trace_of (check lower send source target w)) = Some final /\
    handled final /\ r = result_row lower source target final.
Proof.
  intros H.
  destruct (check_redirect_result source target w) as [final [Hf Ho]].
  rewrite Ho in H. apply check_outcome_returned in H.
  exists final. split; [exact Hf | exact H].
Qed.

(** A check returns a row unless a call raised an exception that is
    not a [RequestException]. *)
Lemma check_redirect_returns (source : str) (target : option str) (w : W) :
  (forall c e, In (c, Failure e) (trace_of (check lower send source target w))
               -> is_RequestException e = true) ->
  exists r, outcome_of (check lower send source target w) = Returned r.
Proof.
  intros Hall.
  destruct (check_redirect_result source target w) as [final [Hf Ho]].
  exists (result_row lower source target final).
  rewrite Ho. apply check_outcome_handled.
  destruct final as [resp|e]; [exact I|].
  destruct (final_reply_In _ _ Hf) as [c Hin].
  exact (Hall c e Hin).
Qed.

(** C1. When the last reply of a check is an HTTP response, the row
    returned is Ok exactly when that response's status code is below
    400 and its URL and the target normalise to the same string. *)
Theorem ok_criterion (source : str) (target : option str) (w : W)
    (resp : Response) :
  final_reply (trace_of (check lower send source target w)) = Some (Answer resp) ->
  exists r,
    outcome_of (check lower send source target w) = Returned r /\
    (statusKind r = Some Ok <->
     (status_code resp < 400)%Z /\
     normalize lower (Some (url resp)) = normalize lower target).
Proof.
  intros Hfinal.
  destruct (check_redirect_result source target w) as [final [Hf Ho]].
  rewrite Hf in Hfinal. injection Hfinal as ->.
  exists (result_row lower source target (Answer resp)).
  split; [exact Ho|].
  destruct (result_row_classification lower source target (Answer resp))
    as [Hk _].
  rewrite Hk. cbn [classification].
  destruct (Z.leb_spec 400 (status_code resp)) as [Hge|Hlt].
  - cbn [fst]. split; [discriminate | lia].
  - destruct (str_eq_dec _ _) as [E|N]; cbn [fst].
    + split; [intros _; split; assumption | reflexivity].
    + split; [discriminate | intros [_ E]; contradiction].
Qed.

(** C4. If HEAD yields a status code of 400 or more, or 0, the check
    issues HEAD and then one GET to the same source with the same
    options, and a row it returns is classified by the GET's reply;
    otherwise HEAD is the only call and its reply classifies the row.
    The check returns a row whenever that reply is a response or a
    [RequestException].  No check makes more than two calls. *)
Theorem fallback_protocol (source : str) (target : option str) (w : W) :
  let res := check lower send source target w in
  let (h, w1) := send (head_call source) w in
  let (g, _) := send (get_call source) w1 in
  ((exists r, h = Answer r /\ (400 <= status_code r \/ status_code r = 0)%Z) ->
   trace_of res = [(head_call source, h); (get_call source, g)] /\
   (handled g -> exists r, outcome_of res = Returned r) /\
   (forall r, outcome_of res = Returned r ->
              statusKind r = Some (fst (classification lower target g)) /\
              Final_URL r = snd (classification lower target g))) /\
  (~ (exists r, h = Answer r /\ (400 <= status_code r \/ status_code r = 0)%Z) ->
   trace_of res = [(head_call source, h)] /\
   (handled h -> exists r, outcome_of res = Returned r) /\
   (forall r, outcome_of res = Returned r ->
              statusKind r = Some (fst (classification lower target h)) /\
              Final_URL r = snd (classification lower target h))) /\
  (length (trace_of res) <= 2)%nat.
Proof.
  unfold check. rewrite run_check_redirect.
  destruct (send (head_call source) w) as [h w1].
  destruct (send (get_call source) w1) as [g w2].
  destruct (needs_fallback h) eqn:Hfb.
  - split; [|split].
    + intros _. split; [reflexivity|]. split.
      * intros Hg. eexists. apply check_outcome_handled. exact Hg.
      * intros r Hr. apply check_outcome_returned in Hr.
        destruct Hr as [_ ->]. apply result_row_classification.
    + intros Hno. exfalso. apply Hno. apply needs_fallback_iff. exact Hfb.
    + cbn. lia.
  - split; [|split].
    + intros Hyes. apply needs_fallback_iff in Hyes. congruence.
    + intros _. split; [reflexivity|]. split.
      * intros Hh. eexists. apply check_outcome_handled. exact Hh.
      * intros r Hr. apply check_outcome_returned in Hr.
        destruct Hr as [_ ->]. apply result_row_classification.
    + cbn. lia.
Qed.

(** C5, amended. If a call of the check fails with a
    [RequestException], the check returns the row (source, target,
    cross mark + " Fehler: " + description, None), a TransportError
    row, and raises nothing.  If a call fails with an exception of
    another class, the check raises that exception. *)
Theorem request_exception_is_data (source : str) (target : option str)
    (w : W) (c : call) (e : exn) :
  In (c, Failure e) (trace_of (check lower send source target w)) ->
  (is_RequestException e = true ->
   outcome_of (check lower send source target w)
   = Returned (source, target, status_error e, None) /\
   statusKind (source, target, status_error e, None) = Some TransportError /\
   status_error e = cross_mark ++ lit " Fehler: " ++ str_of_exn e) /\
  (is_RequestException e = false ->
   outcome_of (check lower send source target w) = Raised e).
Proof.
  intros Hin.
  assert (Ho : outcome_of (check lower send source target w)
               = check_outcome lower source target (Failure e)).
  { revert Hin. unfold check. rewrite run_check_redirect.
    destruct (send (head_call source) w) as [h w1].
    destruct (needs_fallback h) eqn:Hfb.
    - destruct (send (get_call source) w1) as [g w2].
      cbn [trace_of outcome_of snd fst]. intros [E|[E|[]]].
      + injection E as _ ->. discriminate Hfb.
      + injection E as _ ->. reflexivity.
    - cbn [trace_of outcome_of snd fst]. intros [E|[]].
      injection E as _ ->. reflexivity. }
  rewrite Ho. cbn [check_outcome]. split; intros ->.
  - split; [reflexivity|]. split; [apply statusKind_error | reflexivity].
  - reflexivity.
Qed.

(** C6. A check returns a row unless a call raised an exception that
    is not a [RequestException].  A row it returns has no final URL
    only if it is a TransportError row; an Ok, WrongDestination or
    HttpError row has the URL of the last response received. *)
Theorem final_url_absent_only_on_transport_error (source : str)
    (target : option str) (w : W) :
  ((forall c e, In (c, Failure e) (trace_of (check lower send source target w))
                -> is_RequestException e = true) ->
   exists r, outcome_of (check lower send source target w) = Returned r) /\
  forall r,
    outcome_of (check lower send source target w) = Returned r ->
    (Final_URL r = None -> statusKind r = Some TransportError) /\
    (statusKind r = Some Ok \/ statusKind r = Some WrongDestination \/
     statusKind r = Some HttpError ->
     exists resp,
       final_reply (trace_of (check lower send source target w))
       = Some (Answer resp) /\
       Final_URL r = Some (url resp)).
Proof.
  split; [apply check_redirect_returns|].
  intros r Hr.
  destruct (check_redirect_returned source target w r Hr)
    as [final [Hf [_ ->]]].
  destruct (result_row_classification lower source target final)
    as [Hk Hu].
  rewrite Hk, Hu, Hf. clear Hk Hu Hf Hr.
  destruct final as [resp|e]; cbn [classification].
  - split.
    + destruct (400 <=? status_code resp)%Z; [discriminate|].
      destruct (str_eq_dec _ _); discriminate.
    + intros _. exists resp. split; [reflexivity|].
      destruct (400 <=? status_code resp)%Z; [reflexivity|].
      destruct (str_eq_dec _ _); reflexivity.
  - split; [reflexivity|].
    cbn [fst]. intros [H|[H|H]]; discriminate H.
Qed.

(** C10. A check returns a row unless a call raised an exception that
    is not a [RequestException].  Whatever the outcome branch, a row it
    returns has the source and the target it was called with. *)
Theorem row_keeps_source_and_target (source : str) (target : option str)
    (w : W) :
  ((forall c e, In (c, Failure e) (trace_of (check lower send source target w))
                -> is_RequestException e = true) ->
   exists r, outcome_of (check lower send source target w) = Returned r) /\
  forall r,
    outcome_of (check lower send source target w) = Returned r ->
    Source r = source /\ Target r = target /\
    (statusKind r = Some Ok \/ statusKind r = Some WrongDestination \/
     statusKind r = Some HttpError \/ statusKind r = Some TransportError).
Proof.
  split; [apply check_redirect_returns|].
  intros r Hr.
  destruct (check_redirect_returned source target w r Hr)
    as [final [_ [_ ->]]].
  destruct (result_row_source_target lower source target final) as [Hs Ht].
  split; [exact Hs|]. split; [exact Ht|].
  destruct (result_row_classification lower source target final)
    as [Hk _].
  rewrite Hk. destruct (fst (classification lower target final)); tauto.
Qed.

End CheckerClaims.

(** ** Reporter *)

Lemma broken_test_result_row (lower : str -> str) (s : str)
    (t : option str) (final : reply) :
  startswith_any (Status (result_row lower s t final))
                 [cross_mark; warning_sign]
  = negb (is_Ok (result_row lower s t final)).
Proof.
  unfold is_Ok.
  destruct final as [r|e]; cbn [result_row].
  - destruct (400 <=? status_code r)%Z.
    + rewrite statusKind_http_error. reflexivity.
    + destruct (str_neqb _ _).
      * rewrite statusKind_wrong_redirect. reflexivity.
      * rewrite statusKind_correct. reflexivity.
  - rewrite statusKind_error. reflexivity.
Qed.

Lemma produced_result_row (lower : str -> str) (W : Type)
    (send : call -> W -> reply * W) (r : row) :
  produced lower send r ->
  exists s t final, r = result_row lower s t final.
Proof.
  intros [s [t [w H]]].
  destruct (check_redirect_returned lower W send s t w r H)
    as [final [_ [_ ->]]].
  exists s, t, final. reflexivity.
Qed.

(** C8. On rows returned by checks, the broken frame is the rows that
    are not Ok: a row is in it exactly when it is one of the rows and is
    an HttpError, WrongDestination or TransportError row, and no row in
    it is Ok. *)
Theorem broken_partition (lower : str -> str) (W : Type)
    (send : call -> W -> reply * W) (rows : list row) :
  Forall (produced lower send) rows ->
  broken_df rows = filter (fun r => negb (is_Ok r)) rows /\
  (forall r, In r (broken_df rows) <->
             In r rows /\
             (statusKind r = Some HttpError \/
              statusKind r = Some WrongDestination \/
              statusKind r = Some TransportError)) /\
  Forall (fun r => statusKind r <> Some Ok) (broken_df rows).
Proof.
  intros Hrows.
  assert (Hfilter : broken_df rows = filter (fun r => negb (is_Ok r)) rows).
  { unfold broken_df. apply filter_ext_in. intros r Hr.
    rewrite Forall_forall in Hrows.
    destruct (produced_result_row lower W send r (Hrows r Hr))
      as [s [t [final ->]]].
    apply broken_test_result_row. }
  assert (Hkind : forall r, In r rows ->
            (negb (is_Ok r) = true <->
             statusKind r = Some HttpError \/
             statusKind r = Some WrongDestination \/
             statusKind r = Some TransportError)).
  { intros r Hr. rewrite Forall_forall in Hrows.
    destruct (produced_result_row lower W send r (Hrows r Hr))
      as [s [t [final ->]]].
    destruct (result_row_classification lower s t final) as [Hk _].
    unfold is_Ok. rewrite Hk.
    destruct (fst (classification lower t final)); cbn [negb];
      intuition congruence. }
  split; [exact Hfilter|]. split.
  - intros r. rewrite Hfilter, filter_In. split.
    + intros [Hr Hn]. split; [exact Hr | apply Hkind; assumption].
    + intros [Hr Hk]. split; [exact Hr | apply Hkind; assumption].
  - rewrite Hfilter. apply Forall_forall. intros r Hr.
    apply filter_In in Hr. destruct Hr as [_ Hn].
    unfold is_Ok in Hn. intros E. rewrite E in Hn. discriminate Hn.
Qed.

(** ** Dispatcher *)


Lemma check_redirect_row_for (lower : str -> str) (s : str)
    (t : option str) :
  row_for (s, t) (check_redirect lower s t).
Proof.
  unfold check_redirect, requests_head, requests_get, perform.
  cbn [try_except bind row_for].
  intros [r|e]; cbn [try_except bind row_for];
    [|destruct e; cbn [is_RequestException row_for];
      [split; reflexivity | exact I]].
  destruct ((400 <=? status_code r)%Z || (status_code r =? 0)%Z);
    cbn [try_except bind row_for].
  - intros [r2|e2]; cbn [try_except bind row_for];
      [|destruct e2; cbn [is_RequestException row_for];
        [split; reflexivity | exact I]].
    destruct (400 <=? _)%Z; [split; reflexivity|].
    destruct (str_neqb _ _); split; reflexivity.
  - destruct (400 <=? _)%Z; [split; reflexivity|].
    destruct (str_neqb _ _); split; reflexivity.
Qed.





Lemma filter_all_collected (fs : list future) :
  Forall (fun f => yielded f = true) fs ->
  Forall (fun f => yielded f = true -> returned (body f) = true) fs ->
  filter collected fs = fs.
Proof.
  induction 1 as [|f fs Hf _ IH]; intros Hret; [reflexivity|].
  inversion Hret as [|f' fs' Hr Hrs]; subst.
  cbn [filter]. unfold collected at 1. rewrite Hf, (Hr Hf). cbn [andb].
  rewrite (IH Hrs). reflexivity.
Qed.

Section DispatcherProperties.

Variable lower : str -> str.
Variable W : Type.
Variable send : call -> W -> reply * W.

Lemma init_loop_invariant (w : W) (pairs : list (str * option str)) :
  loop_invariant pairs (init lower w pairs).
Proof.
  unfold loop_invariant, init. cbn [futures results completed raised].
  split; [|split; [|split; [|split]]].
  - rewrite map_map. cbn. apply map_id.
  - apply Forall_forall. intros f Hf.
    apply in_map_iff in Hf. destruct Hf as [[s t] [<- _]].
    apply check_redirect_row_for.
  - reflexivity.
  - induction pairs as [|p pairs IH]; [constructor | exact IH].
  - intros _. apply Forall_forall. intros f Hf.
    apply in_map_iff in Hf. destruct Hf as [p [<- _]]. discriminate.
Qed.

Lemma step_loop_invariant (pairs : list (str * option str))
    (st st' : state W) :
  step send st st' -> loop_invariant pairs st -> loop_invariant pairs st'.
Proof.
  unfold loop_invariant.
  intros Hstep. destruct Hstep as [w fs1 fs2 pr c k res n exc r w' E
                                  |w fs1 fs2 pr x res n
                                  |w fs1 fs2 pr e res n];
    cbn [futures results completed raised];
    intros [Hpairs [Hall [Hcount [Hperm Hret]]]].
  - split; [|split; [|split; [|split]]].
    + rewrite map_app in *. exact Hpairs.
    + rewrite Forall_app in *. destruct Hall as [H1 H2].
      split; [exact H1|].
      inversion H2 as [|f fs Hf Hfs]; subst. constructor; [|exact Hfs].
      cbn in *. apply Hf.
    + exact Hcount.
    + rewrite filter_app in *. exact Hperm.
    + intros Hexc. specialize (Hret Hexc).
      rewrite Forall_app in *. destruct Hret as [H1 H2].
      split; [exact H1|].
      inversion H2 as [|f fs _ Hfs]; subst. constructor; [|exact Hfs].
      cbn. discriminate.
  - split; [|split; [|split; [|split]]].
    + rewrite map_app in *. exact Hpairs.
    + rewrite Forall_app in *. destruct Hall as [H1 H2].
      split; [exact H1|].
      inversion H2 as [|f fs Hf Hfs]; subst. constructor; assumption.
    + rewrite length_app. cbn. lia.
    + rewrite Forall_app in Hall. destruct Hall as [_ H2].
      inversion H2 as [|f fs Hf _]; subst. cbn in Hf.
      destruct Hf as [Hs Ht].
      rewrite filter_app in *.
      cbn [filter collected yielded body returned andb] in *.
      rewrite !map_app in *. cbn [map pair].
      replace pr with (row_pair x)
        by (unfold row_pair; rewrite Hs, Ht; destruct pr; reflexivity).
      apply Permutation_trans
        with (row_pair x :: map row_pair res);
        [apply Permutation_sym, Permutation_cons_append|].
      apply Permutation_cons_app. exact Hperm.
    + intros _. specialize (Hret eq_refl).
      rewrite Forall_app in *. destruct Hret as [H1 H2].
      split; [exact H1|].
      inversion H2 as [|f fs _ Hfs]; subst. constructor; [|exact Hfs].
      reflexivity.
  - split; [|split; [|split; [|split]]].
    + rewrite map_app in *. exact Hpairs.
    + rewrite Forall_app in *. destruct Hall as [H1 H2].
      split; [exact H1|].
      inversion H2 as [|f fs Hf Hfs]; subst. constructor; assumption.
    + exact Hcount.
    + rewrite filter_app in *.
      cbn [filter collected yielded body returned andb] in *.
      exact Hperm.
    + discriminate.
Qed.

Lemma reachable_loop_invariant (w : W) (pairs : list (str * option str))
    (st : state W) :
  reachable send (init lower w pairs) st -> loop_invariant pairs st.
Proof.
  intros [n Hsteps].
  remember (init lower w pairs) as st0 eqn:E.
  induction Hsteps as [st|n st1 st2 st3 _ IH Hstep].
  - subst. apply init_loop_invariant.
  - apply (step_loop_invariant pairs st2 st3 Hstep). apply IH. exact E.
Qed.

(** In a run that has come to its end, every future gave a row. *)
Lemma finished_all_collected (pairs : list (str * option str))
    (st : state W) :
  loop_invariant pairs st -> finished st ->
  filter collected (futures st) = futures st.
Proof.
  intros [_ [_ [_ [_ Hret]]]] [Hexc Hfin].
  apply filter_all_collected; [exact Hfin | exact (Hret Hexc)].
Qed.

Lemma finished_rows (w : W) (pairs : list (str * option str))
    (st : state W) :
  reachable send (init lower w pairs) st -> finished st ->
  length (results st) = length pairs /\
  completed st = length pairs /\
  Permutation (map row_pair (results st)) pairs.
Proof.
  intros Hreach Hfin.
  pose proof (reachable_loop_invariant w pairs st Hreach) as Hinv.
  pose proof (finished_all_collected pairs st Hinv Hfin) as Hall.
  destruct Hinv as [Hpairs [_ [Hcount [Hperm _]]]].
  rewrite Hall, Hpairs in Hperm.
  assert (Hlen : length (results st) = length pairs).
  { rewrite <- (length_map row_pair). apply Permutation_length.
    exact Hperm. }
  split; [exact Hlen|]. split; [lia | exact Hperm].
Qed.





(** The requests raise no exception but [RequestException]. *)
Hypothesis only_RequestException :
  forall c w e, fst (send c w) = Failure e -> is_RequestException e = true.







End DispatcherProperties.

Section CompleteRuns.

Variable W : Type.
Variable send : call -> W -> reply * W.

Lemma steps_cons (n : nat) (st1 st2 st3 : state W) :
  step send st1 st2 -> steps send n st2 st3 -> steps send (S n) st1 st3.
Proof.
  intros H12 H23. induction H23 as [st|n st2 st3 st4 _ IH H34].
  - apply steps_S with (st2 := st1); [apply steps_O | exact H12].
  - apply steps_S with (st2 := st3); [apply IH; exact H12 | exact H34].
Qed.



(** A future that is left to run alone reaches its result and is
    collected, in one step per call and one more. *)
Lemma future_completes (p : prog row) :
  forall (w : W) (fs1 fs2 : list future) (pr : str * option str)
         (res : list row) (n : nat) (x : row) (w' : W) (tr : list event),
    run send p w = (Returned x, w', tr) ->
    steps send (S (length tr))
      (State w (fs1 ++ Future pr p false :: fs2) res n None)
      (State w' (fs1 ++ Future pr (Ret x) true :: fs2) (res ++ [x])
             (S n) None).
Proof.
  induction p as [a|e|c k IH]; intros w fs1 fs2 pr res n x w' tr Hrun;
    cbn [run] in Hrun.
  - injection Hrun as <- <- <-.
    apply steps_S with (st2 := State w (fs1 ++ Future pr (Ret a) false :: fs2)
                                     res n None);
      [apply steps_O | apply step_result].
  - discriminate Hrun.
  - destruct (send c w) as [r w1] eqn:E.
    destruct (run send (k r) w1) as [[o w2] tr'] eqn:Ek.
    injection Hrun as -> <- <-.
    apply steps_cons
      with (st2 := State w1 (fs1 ++ Future pr (k r) false :: fs2) res n None).
    + apply step_request. exact E.
    + apply IH. exact Ek.
Qed.

End CompleteRuns.

(** ** The scenarios, under the scripted transport *)

Example scenario_A :
  exists r,
    check_scripted old_page (Some new_page)
      [Answer (mkResponse new_page_slash 200)] = Returned r /\
    statusKind r = Some Ok.
Proof. eexists. split; [reflexivity | vm_compute; reflexivity]. Qed.

Example scenario_B :
  exists r,
    check_scripted old_page (Some new_page)
      [Answer (mkResponse new_other 200)] = Returned r /\
    statusKind r = Some WrongDestination /\ Final_URL r = Some new_other.
Proof.
  eexists. split; [reflexivity|]. split; vm_compute; reflexivity.
Qed.

Example scenario_C :
  exists r,
    check_scripted old_page (Some new_page)
      [Answer (mkResponse old_page 405); Answer (mkResponse new_page 200)]
    = Returned r /\
    statusKind r = Some Ok.
Proof. eexists. split; [reflexivity | vm_compute; reflexivity]. Qed.

Example scenario_D :
  exists r,
    check_scripted old_page (Some new_page) [] = Returned r /\
    statusKind r = Some TransportError /\ Final_URL r = None.
Proof.
  eexists. split; [reflexivity|]. split; vm_compute; reflexivity.
Qed.

Example scenario_E :
  exists r,
    check_scripted old_page (Some new_page)
      [Answer (mkResponse old_page 404); Answer (mkResponse old_page 404)]
    = Returned r /\
    statusKind r = Some HttpError /\
    Status r = cross_mark ++ lit " HTTP Fehler 404".
Proof.
  eexists. split; [reflexivity|]. split; vm_compute; reflexivity.
Qed.

(** ** The theorems at concrete inputs *)

Lemma ok_criterion_witness :
  exists r,
    check_scripted old_page (Some new_page)
      [Answer (mkResponse new_page_slash 200)] = Returned r /\
    (statusKind r = Some Ok <->
     (200 < 400)%Z /\
     normalize ascii_lower (Some new_page_slash)
     = normalize ascii_lower (Some new_page)).
Proof.
  apply (ok_criterion ascii_lower script scripted old_page (Some new_page)
           [Answer (mkResponse new_page_slash 200)]
           (mkResponse new_page_slash 200)).
  reflexivity.
Defined.

Lemma fallback_protocol_witness :
  let w := [Answer (mkResponse old_page 405);
            Answer (mkResponse new_page 200)] in
  trace_of (check ascii_lower scripted old_page (Some new_page) w)
  = [(head_call old_page, Answer (mkResponse old_page 405));
     (get_call old_page, Answer (mkResponse new_page 200))] /\
  exists r,
    outcome_of (check ascii_lower scripted old_page (Some new_page) w)
    = Returned r /\
    statusKind r = Some Ok /\ Final_URL r = Some new_page.
Proof.
  intros w.
  pose proof (fallback_protocol ascii_lower script scripted old_page
                (Some new_page) w) as H.
  cbv beta iota zeta delta [w scripted] in H.
  destruct H as [H _].
  destruct H as [Htr [Hret Hkind]].
  { exists (mkResponse old_page 405).
    split; [reflexivity | left; cbn; lia]. }
  split; [exact Htr|].
  destruct (Hret I) as [r Hr].
  exists r. split; [exact Hr | exact (Hkind r Hr)].
Defined.

Lemma request_exception_witness :
  In (head_call old_page, timed_out)
     (trace_of (check ascii_lower scripted old_page (Some new_page) [])) /\
  check_scripted old_page (Some new_page) []
  = Returned (old_page, Some new_page,
              cross_mark ++ lit " Fehler: timed out", None).
Proof.
  split; [left; reflexivity|].
  apply (request_exception_is_data ascii_lower script scripted old_page
           (Some new_page) [] (head_call old_page)
           (RequestException (lit "timed out"))).
  - left. reflexivity.
  - reflexivity.
Defined.

(** C5, as stated, fails: the request for ['http://a..b'] fails before
    any status is obtained, with an exception that is not a
    [RequestException], and the check raises it instead of returning a
    row. *)
Lemma other_exception_propagates :
  final_reply
    (trace_of (check ascii_lower scripted malformed_url (Some new_page)
                 [parse_error]))
  = Some parse_error /\
  check_scripted malformed_url (Some new_page) [parse_error]
  = Raised (OtherException
              (lit "Failed to parse: 'a..b', label empty or too long")) /\
  ~ (exists r,
       check_scripted malformed_url (Some new_page) [parse_error]
       = Returned r).
Proof.
  split; [reflexivity|]. split; [reflexivity|].
  intros [r H]. discriminate H.
Qed.

Lemma final_url_witness :
  let w := [Answer (mkResponse new_other 200)] in
  exists r,
    outcome_of (check ascii_lower scripted old_page (Some new_page) w)
    = Returned r /\
    (Final_URL r = None -> statusKind r = Some TransportError) /\
    (statusKind r = Some Ok \/ statusKind r = Some WrongDestination \/
     statusKind r = Some HttpError ->
     exists resp,
       final_reply
         (trace_of (check ascii_lower scripted old_page (Some new_page) w))
       = Some (Answer resp) /\
       Final_URL r = Some (url resp)).
Proof.
  intros w.
  destruct (final_url_absent_only_on_transport_error ascii_lower script
              scripted old_page (Some new_page) w) as [Hret Hrow].
  destruct Hret as [r Hr].
  { intros c e [H|[]]. discriminate H. }
  exists r. split; [exact Hr | exact (Hrow r Hr)].
Defined.

Lemma row_keeps_source_and_target_witness :
  exists r,
    outcome_of (check ascii_lower scripted old_page (Some new_page) [])
    = Returned r /\
    Source r = old_page /\ Target r = Some new_page /\
    (statusKind r = Some Ok \/ statusKind r = Some WrongDestination \/
     statusKind r = Some HttpError \/ statusKind r = Some TransportError).
Proof.
  destruct (row_keeps_source_and_target ascii_lower script scripted
              old_page (Some new_page) []) as [Hret Hrow].
  destruct Hret as [r Hr].
  { intros c e [H|[]]. injection H as _ <-. reflexivity. }
  exists r. split; [exact Hr | exact (Hrow r Hr)].
Defined.

Lemma broken_partition_witness :
  let ok_row := (old_page, Some new_page, status_correct,
                 Some new_page_slash) in
  let wrong_row := (old_page, Some new_page,
                    status_wrong_redirect new_other, Some new_other) in
  broken_df [ok_row; wrong_row] = [wrong_row].
Proof.
  intros ok_row wrong_row.
  assert (Hrows : Forall (produced ascii_lower scripted) [ok_row; wrong_row]).
  { repeat constructor.
    - exists old_page, (Some new_page),
        [Answer (mkResponse new_page_slash 200)]. reflexivity.
    - exists old_page, (Some new_page),
        [Answer (mkResponse new_other 200)]. reflexivity. }
  rewrite (proj1 (broken_partition ascii_lower script scripted
                    [ok_row; wrong_row] Hrows)).
  vm_compute. reflexivity.
Defined.



(* ===================================================================== *)
(** * Further properties of the code                                      *)
(* ===================================================================== *)

(** ** Column detection *)

Lemma contains_In (l : list str) (x : str) :
  contains l x = true <-> In x l.
Proof.
  unfold contains. rewrite existsb_exists. split.
  - intros [y [Hy E]]. destruct (str_eq_dec y x); [subst; exact Hy | discriminate].
  - intros H. exists x. split; [exact H|].
    destruct (str_eq_dec x x); [reflexivity | contradiction].
Qed.

Lemma lowered_In (lower : str -> str) (columns : list str) (x : str) :
  In x (map lower columns) <-> exists c, In c columns /\ lower c = x.
Proof.
  rewrite in_map_iff. split; intros [c [H1 H2]]; exists c; tauto.
Qed.

(** Where [index] finds a lower-cased name, the subscript finds the
    first column of that name. *)
Lemma index_first_match (lower : str -> str) (columns : list str) (x : str) :
  In x (map lower columns) ->
  exists i c pre post,
    index (map lower columns) x = Some i /\
    nth_error columns i = Some c /\
    columns = pre ++ c :: post /\
    lower c = x /\
    Forall (fun d => lower d <> x) pre.
Proof.
  induction columns as [|d cs IH]; cbn [map index]; intros Hin; [destruct Hin|].
  destruct (str_eq_dec (lower d) x) as [E|N].
  - exists O, d, [], cs. repeat split; try assumption. constructor.
  - destruct Hin as [E|Hin]; [contradiction|].
    destruct (IH Hin) as [i [c [pre [post [Hi [Hn [Hc [Hl Hpre]]]]]]]].
    exists (S i), c, (d :: pre), post. rewrite Hi. cbn.
    repeat split; try assumption.
    + rewrite Hc. reflexivity.
    + constructor; assumption.
Qed.

Lemma select_columns_guard (lower : str -> str) (columns : list str) :
  negb (contains (map lower columns) (lit "source"))
  || negb (contains (map lower columns) (lit "target")) = false <->
  (exists c, In c columns /\ lower c = lit "source") /\
  (exists c, In c columns /\ lower c = lit "target").
Proof.
  rewrite orb_false_iff, !negb_false_iff, !contains_In, !lowered_In.
  reflexivity.
Qed.

(** X1. The error message for missing columns is shown exactly when no
    column name lower-cases to "source" or none lower-cases to
    "target". *)
Theorem select_columns_missing_iff (lower : str -> str)
    (columns : list str) :
  select_columns lower columns = MissingColumns <->
  ~ (exists c, In c columns /\ lower c = lit "source") \/
  ~ (exists c, In c columns /\ lower c = lit "target").
Proof.
  unfold select_columns.
  destruct (negb (contains (map lower columns) (lit "source"))
            || negb (contains (map lower columns) (lit "target"))) eqn:G.
  - split; [intros _ | reflexivity].
    apply orb_true_iff in G.
    rewrite !negb_true_iff in G.
    destruct G as [G|G]; [left | right]; intros H;
      apply lowered_In, contains_In in H; congruence.
  - apply select_columns_guard in G. split.
    + intros H.
      destruct (index _ _); [|discriminate H].
      destruct (nth_error _ _); [|discriminate H].
      destruct (index _ _); [|discriminate H].
      destruct (nth_error _ _); discriminate H.
    + intros [H|H]; exfalso; apply H; apply G.
Qed.

(** X2. When some column name lower-cases to "source" and some to
    "target", the selection raises nothing and picks, for each, the
    first column of the sheet whose lower-cased name matches; the two
    columns picked are different. *)
Theorem select_columns_first_match (lower : str -> str)
    (columns : list str) :
  (exists c, In c columns /\ lower c = lit "source") ->
  (exists c, In c columns /\ lower c = lit "target") ->
  exists source_col target_col pre post pre' post',
    select_columns lower columns = Selected source_col target_col /\
    columns = pre ++ source_col :: post /\
    lower source_col = lit "source" /\
    Forall (fun d => lower d <> lit "source") pre /\
    columns = pre' ++ target_col :: post' /\
    lower target_col = lit "target" /\
    Forall (fun d => lower d <> lit "target") pre' /\
    source_col <> target_col.
Proof.
  intros Hs Ht.
  pose proof (proj2 (select_columns_guard lower columns) (conj Hs Ht)) as G.
  apply lowered_In in Hs, Ht.
  destruct (index_first_match lower columns _ Hs)
    as [i [sc [pre [post [Hi [Hn [Hc [Hl Hpre]]]]]]]].
  destruct (index_first_match lower columns _ Ht)
    as [j [tc [pre' [post' [Hj [Hm [Hc' [Hl' Hpre']]]]]]]].
  exists sc, tc, pre, post, pre', post'.
  unfold select_columns. rewrite G, Hi, Hn, Hj, Hm.
  repeat split; try assumption.
  intros E. subst tc. rewrite Hl in Hl'. discriminate Hl'.
Qed.

Lemma select_columns_witness :
  exists source_col target_col pre post pre' post',
    select_columns ascii_lower
      [lit "ID"; lit "Source"; lit "TARGET"; lit "source"]
    = Selected source_col target_col /\
    [lit "ID"; lit "Source"; lit "TARGET"; lit "source"]
    = pre ++ source_col :: post /\
    ascii_lower source_col = lit "source" /\
    Forall (fun d => ascii_lower d <> lit "source") pre /\
    [lit "ID"; lit "Source"; lit "TARGET"; lit "source"]
    = pre' ++ target_col :: post' /\
    ascii_lower target_col = lit "target" /\
    Forall (fun d => ascii_lower d <> lit "target") pre' /\
    source_col <> target_col.
Proof.
  apply (select_columns_first_match ascii_lower
           [lit "ID"; lit "Source"; lit "TARGET"; lit "source"]).
  - exists (lit "Source"). split; [right; left|]; reflexivity.
  - exists (lit "TARGET"). split; [right; right; left|]; reflexivity.
Defined.

(** ** Pairs *)

Lemma dropna_length (col : list (option str)) :
  length (dropna col) <= length col.
Proof.
  induction col as [|[v|] col IH]; cbn [dropna length]; lia.
Qed.

Lemma dropna_filled_fst (l : list (str * str)) :
  dropna (map fst (map filled l)) = map fst l.
Proof.
  induction l as [|p l IH]; [reflexivity|].
  cbn [map filled fst dropna]. rewrite IH. reflexivity.
Qed.

Lemma dropna_filled_snd (l : list (str * str)) :
  dropna (map snd (map filled l)) = map snd l.
Proof.
  induction l as [|p l IH]; [reflexivity|].
  cbn [map filled snd dropna]. rewrite IH. reflexivity.
Qed.

Lemma make_pairs_filled_cons (p : str * str) (df : sheet) :
  make_pairs (filled p :: df) = p :: make_pairs df.
Proof. destruct p as [s t]. reflexivity. Qed.

Lemma make_pairs_complete_rows (df : sheet) :
  Forall cells_agree df -> make_pairs df = complete_rows df.
Proof.
  induction 1 as [|[[s|] [t|]] df Hr _ IH]; cbn [complete_rows];
    try contradiction Hr.
  - reflexivity.
  - change (Some s, Some t) with (filled (s, t)).
    rewrite make_pairs_filled_cons, IH. reflexivity.
  - exact IH.
Qed.

(** X3. The number of pairs checked, the total announced before the
    run, is the smaller of the number of present source cells and the
    number of present target cells; it is at most the number of rows of
    the sheet. *)
Theorem make_pairs_length (df : sheet) :
  length (make_pairs df)
  = Nat.min (length (dropna (map fst df))) (length (dropna (map snd df))) /\
  length (make_pairs df) <= length df.
Proof.
  unfold make_pairs. rewrite length_combine. split; [reflexivity|].
  pose proof (dropna_length (map fst df)) as H.
  rewrite length_map in H. lia.
Qed.

(** X4. If in every row of the sheet the two cells are both present or
    both missing, the pairs checked are the rows that have both cells,
    in the order of the sheet. *)
Theorem make_pairs_aligned (df : sheet) :
  Forall cells_agree df -> make_pairs df = complete_rows df.
Proof. exact (make_pairs_complete_rows df). Qed.

Lemma make_pairs_aligned_witness :
  make_pairs [(Some old_page, Some new_page); (None, None);
              (Some new_other, Some new_page_slash)]
  = [(old_page, new_page); (new_other, new_page_slash)].
Proof.
  apply (make_pairs_aligned
           [(Some old_page, Some new_page); (None, None);
            (Some new_other, Some new_page_slash)]).
  repeat constructor.
Defined.

(** X5. A row with a source but no target is not skipped.  With every
    other row filled, the rows above it are paired as they stand, and
    from that row on each source is paired with the target of the row
    below it; the source of the last row is paired with nothing. *)
Theorem make_pairs_shift (above below : list (str * str)) (a : str) :
  make_pairs (map filled above ++ (Some a, None) :: map filled below)
  = above ++ combine (a :: map fst below) (map snd below).
Proof.
  induction above as [|p above IH]; cbn [map app].
  - unfold make_pairs. cbn [map fst snd dropna].
    rewrite dropna_filled_fst, dropna_filled_snd. reflexivity.
  - rewrite make_pairs_filled_cons, IH. reflexivity.
Qed.

(** ** Result display *)

Lemma broken_df_not_Ok (lower : str -> str) (W : Type)
    (send : call -> W -> reply * W) (rows : list row) :
  Forall (produced lower send) rows ->
  broken_df rows = filter (fun r => negb (is_Ok r)) rows.
Proof.
  intros Hrows. unfold broken_df. apply filter_ext_in. intros r Hr.
  rewrite Forall_forall in Hrows.
  destruct (produced_result_row lower W send r (Hrows r Hr))
    as [s [t [final ->]]].
  apply broken_test_result_row.
Qed.

Lemma is_Ok_true (r : row) : is_Ok r = true <-> statusKind r = Some Ok.
Proof.
  unfold is_Ok. destruct (statusKind r) as [[| | |]|];
    split; intros H; try reflexivity; discriminate H.
Qed.

Lemma filter_nil_iff {A} (f : A -> bool) (l : list A) :
  filter f l = [] <-> Forall (fun x => f x = false) l.
Proof.
  induction l as [|x l IH]; cbn [filter].
  - split; [constructor | reflexivity].
  - destruct (f x) eqn:E; split; intros H.
    + discriminate H.
    + inversion H; congruence.
    + constructor; [exact E | apply IH; exact H].
    + inversion H; subst. apply IH. assumption.
Qed.

(** X6. On rows returned by checks, the success message is shown
    exactly when every row is Ok; otherwise the warning shows the
    number of rows that are not Ok, which is at least one, with the
    table of those rows in the order of the results. *)
Theorem show_result_all_correct_iff (lower : str -> str) (W : Type)
    (send : call -> W -> reply * W) (rows : list row) :
  Forall (produced lower send) rows ->
  (show_result rows = AllCorrect <->
   Forall (fun r => statusKind r = Some Ok) rows) /\
  (forall n table, show_result rows = BrokenFound n table ->
     table = filter (fun r => negb (is_Ok r)) rows /\
     n = length table /\ 1 <= n).
Proof.
  intros Hrows. unfold show_result.
  rewrite (broken_df_not_Ok lower W send rows Hrows).
  destruct (filter (fun r => negb (is_Ok r)) rows) as [|b bs] eqn:E.
  - split; [|intros n table H; discriminate H].
    split; [intros _ | reflexivity].
    apply filter_nil_iff in E. revert E. apply Forall_impl.
    intros r Hr. apply is_Ok_true. apply negb_false_iff. exact Hr.
  - split.
    + split; [intros H; discriminate H|].
      intros Hall. exfalso.
      assert (Hnil : filter (fun r => negb (is_Ok r)) rows = []).
      { apply filter_nil_iff. revert Hall. apply Forall_impl.
        intros r Hr. apply negb_false_iff. apply is_Ok_true. exact Hr. }
      congruence.
    + intros n table H. injection H as <- <-.
      split; [reflexivity|]. split; [reflexivity | cbn; lia].
Qed.

Lemma show_result_witness :
  let ok_row := (old_page, Some new_page, status_correct,
                 Some new_page_slash) in
  (show_result [ok_row; ok_row] = AllCorrect <->
   Forall (fun r => statusKind r = Some Ok) [ok_row; ok_row]) /\
  (forall n table, show_result [ok_row; ok_row] = BrokenFound n table ->
     table = filter (fun r => negb (is_Ok r)) [ok_row; ok_row] /\
     n = length table /\ 1 <= n).
Proof.
  intros ok_row.
  apply (show_result_all_correct_iff ascii_lower script scripted).
  repeat constructor;
    exists old_page, (Some new_page),
      [Answer (mkResponse new_page_slash 200)]; reflexivity.
Defined.

(** ** Dispatcher: what holds during a run *)

Lemma filter_split (g : future -> bool) (fs : list future) :
  Permutation
    (map pair (filter g fs) ++ map pair (filter (fun f => negb (g f)) fs))
    (map pair fs).
Proof.
  induction fs as [|f fs IH]; cbn [filter map app]; [constructor|].
  destruct (g f); cbn [negb map app].
  - apply perm_skip. exact IH.
  - apply Permutation_sym, Permutation_cons_app, Permutation_sym. exact IH.
Qed.

(** X7. At every moment of a run the counter equals the number of rows
    collected and does not exceed the total, and the rows collected so
    far are for different input pairs: together with the pairs still
    pending they make up the input. *)
Theorem progress_invariant (lower : str -> str) (W : Type)
    (send : call -> W -> reply * W) (w : W)
    (pairs : list (str * option str)) (st : state W) :
  reachable send (init lower w pairs) st ->
  completed st = length (results st) /\
  completed st <= length pairs /\
  exists pending,
    Permutation (map row_pair (results st) ++ pending) pairs.
Proof.
  intros Hreach.
  destruct (reachable_loop_invariant lower W send w pairs st Hreach)
    as [Hpairs [_ [Hcount [Hperm _]]]].
  assert (Hall : Permutation
            (map row_pair (results st)
             ++ map pair (filter (fun f => negb (collected f)) (futures st)))
            pairs).
  { rewrite <- Hpairs.
    apply Permutation_trans
      with (map pair (filter collected (futures st))
            ++ map pair (filter (fun f => negb (collected f)) (futures st))).
    - apply Permutation_app_tail. exact Hperm.
    - apply filter_split. }
  split; [exact Hcount|]. split.
  - apply Permutation_length in Hall.
    rewrite length_app, length_map in Hall. lia.
  - eexists. exact Hall.
Qed.

Lemma progress_invariant_witness :
  let pairs := [(old_page, Some new_page)] in
  let w := [Answer (mkResponse new_page_slash 200)] in
  let x := (old_page, Some new_page, status_correct,
            Some new_page_slash) in
  let st := State ([] : script)
                  [Future (old_page, Some new_page) (Ret x) true]
                  [x] 1 None in
  completed st = length (results st) /\
  completed st <= length pairs /\
  exists pending,
    Permutation (map row_pair (results st) ++ pending) pairs.
Proof.
  intros pairs w x st.
  apply (progress_invariant ascii_lower script scripted w pairs st).
  exists 2.
  apply (future_completes script scripted
           (check_redirect ascii_lower old_page (Some new_page))
           w [] [] (old_page, Some new_page) [] 0 x []
           [(head_call old_page, Answer (mkResponse new_page_slash 200))]).
  reflexivity.
Defined.

(** ** Dispatcher: the schedule does not change the rows *)

Lemma expected_outcome_returned (lower : str -> str)
    (answer : call -> reply) (p : str * option str) (x : row) :
  expected_outcome lower answer p = Returned x ->
  x = expected_row lower answer p.
Proof.
  unfold expected_outcome, expected_row.
  destruct (needs_fallback _); intros H;
    apply check_outcome_returned in H; apply H.
Qed.

Section Stateless.

Variable lower : str -> str.
Variable W : Type.
Variable send : call -> W -> reply * W.

(** The reply to a call does not depend on the state of the network. *)
Hypothesis stateless : forall c w1 w2, fst (send c w1) = fst (send c w2).

Lemma outcome_of_request {A} (c : call) (k : reply -> prog A) (w : W) :
  outcome_of (run send (Request c k) w)
  = outcome_of (run send (k (fst (send c w))) (snd (send c w))).
Proof.
  cbn [run]. destruct (send c w) as [r w1]. cbn [fst snd].
  destruct (run send (k r) w1) as [[o w2] tr]. reflexivity.
Qed.

Lemma outcome_stateless {A} (p : prog A) (w1 w2 : W) :
  outcome_of (run send p w1) = outcome_of (run send p w2).
Proof.
  revert w1 w2. induction p as [a|e|c k IH]; intros w1 w2;
    [reflexivity | reflexivity |].
  rewrite !outcome_of_request, (stateless c w1 w2). apply IH.
Qed.

Lemma check_expected_outcome (w0 : W) (p : str * option str) (w : W) :
  outcome_of (check lower send (fst p) (snd p) w)
  = expected_outcome lower (fun c => fst (send c w0)) p.
Proof.
  unfold check, expected_outcome. rewrite run_check_redirect.
  rewrite (stateless (head_call (fst p)) w0 w).
  destruct (send (head_call (fst p)) w) as [h w1]. cbn [fst].
  destruct (needs_fallback h); [|reflexivity].
  rewrite (stateless (get_call (fst p)) w0 w1).
  destruct (send (get_call (fst p)) w1) as [g w2]. reflexivity.
Qed.

Lemma stateless_step (w0 : W) (st st' : state W) :
  step send st st' ->
  Forall (fun f => forall w',
            outcome_of (run send (body f) w')
            = expected_outcome lower (fun c => fst (send c w0)) (pair f))
         (futures st) /\
  Permutation (results st)
    (map (fun f => expected_row lower (fun c => fst (send c w0)) (pair f))
         (filter collected (futures st))) ->
  Forall (fun f => forall w',
            outcome_of (run send (body f) w')
            = expected_outcome lower (fun c => fst (send c w0)) (pair f))
         (futures st') /\
  Permutation (results st')
    (map (fun f => expected_row lower (fun c => fst (send c w0)) (pair f))
         (filter collected (futures st'))).
Proof.
  intros Hstep. destruct Hstep as [w fs1 fs2 pr c k res n exc r w' E
                                  |w fs1 fs2 pr x res n
                                  |w fs1 fs2 pr e res n];
    cbn [futures results]; intros [Hall Hperm].
  - split.
    + rewrite Forall_app in *. destruct Hall as [H1 H2].
      split; [exact H1|].
      inversion H2 as [|f fs Hf Hfs]; subst. constructor; [|exact Hfs].
      cbn [body pair] in *. intros w''.
      rewrite <- (Hf w), outcome_of_request, E. cbn [fst snd].
      apply outcome_stateless.
    + rewrite filter_app in *. exact Hperm.
  - assert (Hx : x = expected_row lower (fun c => fst (send c w0)) pr).
    { rewrite Forall_app in Hall. destruct Hall as [_ H2].
      inversion H2 as [|f fs Hf _]; subst. cbn [body pair] in Hf.
      specialize (Hf w). apply expected_outcome_returned.
      rewrite <- Hf. reflexivity. }
    split.
    + rewrite Forall_app in *. destruct Hall as [H1 H2].
      split; [exact H1|].
      inversion H2 as [|f fs Hf Hfs]; subst. constructor; assumption.
    + rewrite filter_app in *.
      cbn [filter collected yielded body returned andb] in *.
      rewrite map_app in *. cbn [map pair]. rewrite <- Hx.
      apply Permutation_trans with (x :: res);
        [apply Permutation_sym, Permutation_cons_append|].
      apply Permutation_cons_app. exact Hperm.
  - split.
    + rewrite Forall_app in *. destruct Hall as [H1 H2].
      split; [exact H1|].
      inversion H2 as [|f fs Hf Hfs]; subst. constructor; assumption.
    + rewrite filter_app in *.
      cbn [filter collected yielded body returned andb] in *.
      exact Hperm.
Qed.

Lemma stateless_reachable (w : W) (pairs : list (str * option str))
    (st : state W) :
  reachable send (init lower w pairs) st ->
  Forall (fun f => forall w',
            outcome_of (run send (body f) w')
            = expected_outcome lower (fun c => fst (send c w)) (pair f))
         (futures st) /\
  Permutation (results st)
    (map (fun f => expected_row lower (fun c => fst (send c w)) (pair f))
         (filter collected (futures st))).
Proof.
  intros [n Hsteps].
  remember (init lower w pairs) as st0 eqn:E.
  induction Hsteps as [st|n st1 st2 st3 Hsteps IH Hstep].
  - subst st. cbn [init futures results]. split.
    + apply Forall_forall. intros f Hf.
      apply in_map_iff in Hf. destruct Hf as [p [<- _]].
      intros w'. cbn [submit body pair].
      apply (check_expected_outcome w p w').
    + clear. induction pairs as [|p ps IH]; [constructor | exact IH].
  - apply (stateless_step w st2 st3 Hstep). apply IH. exact E.
Qed.

(** In a finished run the check of every pair returns its row. *)
Lemma finished_returns (w : W) (pairs : list (str * option str))
    (st : state W) (p : str * option str) :
  reachable send (init lower w pairs) st -> finished st -> In p pairs ->
  expected_outcome lower (fun c => fst (send c w)) p
  = Returned (expected_row lower (fun c => fst (send c w)) p).
Proof.
  intros Hreach Hfin Hp.
  pose proof (reachable_loop_invariant lower W send w pairs st Hreach)
    as [Hpairs [_ [_ [_ Hret]]]].
  destruct (stateless_reachable w pairs st Hreach) as [Hall _].
  destruct Hfin as [Hexc Hyield]. specialize (Hret Hexc).
  rewrite <- Hpairs in Hp. apply in_map_iff in Hp.
  destruct Hp as [f [<- Hf]].
  rewrite Forall_forall in Hall, Hret, Hyield.
  pose proof (Hret f Hf (Hyield f Hf)) as Hbody.
  pose proof (Hall f Hf w) as Hout.
  destruct (body f) as [x| |]; try discriminate Hbody.
  cbn in Hout. rewrite <- Hout. f_equal.
  apply expected_outcome_returned. rewrite <- Hout. reflexivity.
Qed.

(** X8. If the reply to each call does not depend on the state of the
    network, the order in which the workers run changes only the order
    of the rows: a finished run has collected, up to order, the rows
    the checks of the pairs return when run alone. *)
Theorem schedule_independence (w : W) (pairs : list (str * option str))
    (st : state W) :
  reachable send (init lower w pairs) st -> finished st ->
  Permutation (results st)
    (map (expected_row lower (fun c => fst (send c w))) pairs) /\
  forall p w', In p pairs ->
    outcome_of (check lower send (fst p) (snd p) w')
    = Returned (expected_row lower (fun c => fst (send c w)) p).
Proof.
  intros Hreach Hfin. split.
  - pose proof (reachable_loop_invariant lower W send w pairs st Hreach)
      as Hinv.
    pose proof (finished_all_collected W pairs st Hinv Hfin) as Hcol.
    destruct Hinv as [Hpairs _].
    destruct (stateless_reachable w pairs st Hreach) as [_ Hperm].
    rewrite Hcol in Hperm.
    rewrite <- Hpairs, map_map. exact Hperm.
  - intros p w' Hp. rewrite (check_expected_outcome w p w').
    apply (finished_returns w pairs st p Hreach Hfin Hp).
Qed.


End Stateless.

Lemma schedule_independence_witness :
  let pairs := [(old_page, Some old_page)] in
  let x := (old_page, Some old_page, status_correct, Some old_page) in
  let st := State tt [Future (old_page, Some old_page) (Ret x) true]
                  [x] 1 None in
  Permutation (results st)
    (map (expected_row ascii_lower (fun c => fst (no_redirect c tt))) pairs) /\
  forall p w', In p pairs ->
    outcome_of (check ascii_lower no_redirect (fst p) (snd p) w')
    = Returned (expected_row ascii_lower (fun c => fst (no_redirect c tt)) p).
Proof.
  intros pairs x st.
  apply (schedule_independence ascii_lower unit no_redirect
           (fun c w1 w2 => eq_refl) tt pairs st).
  - exists 2.
    apply (future_completes unit no_redirect
             (check_redirect ascii_lower old_page (Some old_page))
             tt [] [] (old_page, Some old_page) [] 0 x tt
             [(head_call old_page, Answer (mkResponse old_page 200))]).
    reflexivity.
  - split; [reflexivity | repeat constructor].
Defined.


(** X9. From the sheet to the result frame: if in every row the two
    cells are both present or both missing, a finished run has one
    result row for each row of the sheet that has both cells, with that
    row's source and target. *)
Theorem sheet_to_results (lower : str -> str) (W : Type)
    (send : call -> W -> reply * W) (w : W) (df : sheet) (st : state W) :
  Forall cells_agree df ->
  reachable send (init lower w (map submitted (make_pairs df))) st ->
  finished st ->
  length (results st) = length (complete_rows df) /\
  Permutation (map row_pair (results st))
              (map submitted (complete_rows df)).
Proof.
  intros Hdf Hreach Hfin.
  rewrite (make_pairs_complete_rows df Hdf) in Hreach.
  destruct (finished_rows lower W send w _ st Hreach Hfin)
    as [Hlen [_ Hperm]].
  rewrite length_map in Hlen. split; [exact Hlen | exact Hperm].
Qed.

Lemma sheet_to_results_witness :
  let df := [(Some old_page, Some new_page); (None, None)] in
  let x := (old_page, Some new_page, status_correct,
            Some new_page_slash) in
  let st := State ([] : script)
                  [Future (old_page, Some new_page) (Ret x) true]
                  [x] 1 None in
  length (results st) = length (complete_rows df) /\
  Permutation (map row_pair (results st))
              (map submitted (complete_rows df)).
Proof.
  intros df x st.
  apply (sheet_to_results ascii_lower script scripted
           [Answer (mkResponse new_page_slash 200)] df st).
  - repeat constructor.
  - exists 2.
    apply (future_completes script scripted
             (check_redirect ascii_lower old_page (Some new_page))
             [Answer (mkResponse new_page_slash 200)]
             [] [] (old_page, Some new_page) [] 0 x []
             [(head_call old_page, Answer (mkResponse new_page_slash 200))]).
    reflexivity.
  - split; [reflexivity | repeat constructor].
Defined.

(** ** Normalizer: what the comparison ignores *)

Lemma lstrip_with_app_all (f : codepoint -> bool) (l s : str) :
  forallb f l = true -> lstrip_with f (l ++ s) = lstrip_with f s.
Proof.
  induction l as [|c l IH]; cbn [forallb app lstrip_with]; intros H;
    [reflexivity|].
  apply andb_true_iff in H. destruct H as [Hc Hl].
  rewrite Hc. apply IH. exact Hl.
Qed.

Lemma rstrip_with_app_all (f : codepoint -> bool) (s r : str) :
  forallb f r = true -> rstrip_with f (s ++ r) = rstrip_with f s.
Proof.
  intros H. unfold rstrip_with. rewrite rev_app_distr, lstrip_with_app_all;
    [reflexivity|].
  rewrite forallb_forall in *. intros x Hx. apply H. apply in_rev. exact Hx.
Qed.

Lemma rstrip_with_snoc_keep (f : codepoint -> bool) (s : str)
    (c : codepoint) :
  f c = false -> rstrip_with f (s ++ [c]) = s ++ [c].
Proof.
  intros H. unfold rstrip_with. rewrite rev_app_distr.
  change (rev [c] ++ rev s) with (c :: rev s). cbn [lstrip_with].
  rewrite H. cbn [rev]. rewrite rev_involutive. reflexivity.
Qed.

Lemma trimmed_strip (u : str) : trimmed u -> strip u = u.
Proof.
  destruct u as [|c u']; [reflexivity|]. intros [Hc Hlast].
  apply strip_fixed.
  - apply lstrip_with_fixed. exact Hc.
  - rewrite (app_removelast_last c (l := c :: u')) by discriminate.
    apply rstrip_with_snoc_keep. exact Hlast.
Qed.

Lemma strip_surrounded (l u r : str) :
  u <> [] -> trimmed u ->
  forallb isspace l = true -> forallb isspace r = true ->
  strip (l ++ u ++ r) = u.
Proof.
  intros Hne Hu Hl Hr. unfold strip.
  rewrite lstrip_with_app_all by exact Hl.
  destruct u as [|c u']; [contradiction|].
  assert (Hfix : lstrip_with isspace ((c :: u') ++ r) = (c :: u') ++ r).
  { apply lstrip_with_fixed. apply Hu. }
  rewrite Hfix, rstrip_with_app_all by exact Hr.
  pose proof (trimmed_strip (c :: u') Hu) as Hs. unfold strip in Hs.
  rewrite (proj2 (lstrip_with_fixed isspace (c :: u')) (proj1 Hu)) in Hs.
  exact Hs.
Qed.

Lemma normalize_nonempty (lower : str -> str) (x : str) :
  x <> [] -> normalize lower (Some x) = rstrip (lit "/") (lower (strip x)).
Proof. destruct x; [contradiction | reflexivity]. Qed.

Lemma rstrip_slash_repeat (v : str) (n : nat) :
  rstrip (lit "/") (v ++ repeat slash n) = rstrip (lit "/") v.
Proof.
  induction n as [|n IH]; cbn [repeat].
  - rewrite app_nil_r. reflexivity.
  - rewrite repeat_cons, app_assoc, rstrip_slash_snoc, N.eqb_refl.
    exact IH.
Qed.

Lemma trimmed_slashes (u : str) (n : nat) :
  u <> [] -> trimmed u -> trimmed (u ++ repeat slash n).
Proof.
  intros Hne Hu. destruct u as [|c u']; [contradiction|].
  destruct n as [|n].
  - cbn [repeat]. rewrite app_nil_r. exact Hu.
  - split; [apply Hu|].
    cbn [repeat]. rewrite repeat_cons.
    change ((c :: u') ++ repeat slash n ++ [slash])
      with ((c :: u') ++ (repeat slash n ++ [slash])).
    rewrite app_assoc, last_last. reflexivity.
Qed.

(** X10. Whitespace around a URL does not count in the comparison: a
    non-empty string with no whitespace at its ends normalises to the
    same string with any whitespace put before and after it. *)
Theorem normalize_ignores_surrounding_space (lower : str -> str)
    (l u r : str) :
  u <> [] -> trimmed u ->
  forallb isspace l = true -> forallb isspace r = true ->
  normalize lower (Some (l ++ u ++ r)) = normalize lower (Some u).
Proof.
  intros Hne Hu Hl Hr.
  rewrite !normalize_nonempty.
  - rewrite (strip_surrounded l u r Hne Hu Hl Hr), (trimmed_strip u Hu).
    reflexivity.
  - exact Hne.
  - intros E. apply app_eq_nil in E. destruct E as [_ E].
    apply app_eq_nil in E. destruct E as [E _]. contradiction.
Qed.

Lemma normalize_ignores_surrounding_space_witness :
  normalize ascii_lower (Some (lit "  " ++ new_page ++ lit " "))
  = normalize ascii_lower (Some new_page).
Proof.
  apply (normalize_ignores_surrounding_space ascii_lower
           (lit "  ") new_page (lit " ")).
  - discriminate.
  - split; reflexivity.
  - reflexivity.
  - reflexivity.
Defined.

(** X11. Trailing slashes do not count in the comparison: a non-empty
    string with no whitespace at its ends normalises to the same string
    with any number of slashes appended.  Of [str.lower] this uses that
    it leaves trailing slashes in place. *)
Theorem normalize_ignores_trailing_slashes (lower : str -> str)
    (u : str) (n : nat) :
  (forall s k, lower (s ++ repeat slash k) = lower s ++ repeat slash k) ->
  u <> [] -> trimmed u ->
  normalize lower (Some (u ++ repeat slash n)) = normalize lower (Some u).
Proof.
  intros Hlow Hne Hu.
  rewrite !normalize_nonempty.
  - rewrite (trimmed_strip _ (trimmed_slashes u n Hne Hu)),
      (trimmed_strip u Hu), Hlow.
    apply rstrip_slash_repeat.
  - exact Hne.
  - intros E. apply app_eq_nil in E. destruct E as [E _]. contradiction.
Qed.

Lemma ascii_lower_slashes (s : str) (k : nat) :
  ascii_lower (s ++ repeat slash k) = ascii_lower s ++ repeat slash k.
Proof.
  unfold ascii_lower. rewrite map_app, map_repeat. reflexivity.
Qed.

Lemma normalize_ignores_trailing_slashes_witness :
  normalize ascii_lower (Some (new_page ++ repeat slash 3))
  = normalize ascii_lower (Some new_page).
Proof.
  apply (normalize_ignores_trailing_slashes ascii_lower new_page 3).
  - exact ascii_lower_slashes.
  - discriminate.
  - split; reflexivity.
Defined.

(** X12. Letter case does not count in the comparison, anywhere in the
    URL: two non-empty strings with the same lower-casing normalise to
    the same string.  Of [str.lower] this uses that it commutes with
    trimming. *)
Theorem normalize_ignores_case (lower : str -> str) (u v : str) :
  (forall s, lower (strip s) = strip (lower s)) ->
  u <> [] -> v <> [] -> lower u = lower v ->
  normalize lower (Some u) = normalize lower (Some v).
Proof.
  intros Hcomm Hu Hv E.
  rewrite !normalize_nonempty by assumption.
  rewrite !Hcomm, E. reflexivity.
Qed.

Lemma upper_not_space (c : codepoint) :
  (0x41 <= c)%N -> (c <= 0x5A)%N -> isspace c = false.
Proof.
  intros H1 H2. unfold isspace.
  replace (c <=? 0x0D)%N with false by (symmetry; apply N.leb_gt; lia).
  replace (c <=? 0x20)%N with false by (symmetry; apply N.leb_gt; lia).
  replace (0x2000 <=? c)%N with false by (symmetry; apply N.leb_gt; lia).
  repeat match goal with
         | |- context [(c =? ?k)%N] =>
             replace (c =? k)%N with false
               by (symmetry; apply N.eqb_neq; lia)
         end.
  rewrite !andb_false_r. reflexivity.
Qed.

Lemma ascii_lower_cp_isspace_eq (c : codepoint) :
  isspace (ascii_lower_cp c) = isspace c.
Proof.
  destruct (isspace c) eqn:S; [|apply ascii_lower_cp_isspace; exact S].
  unfold ascii_lower_cp.
  destruct ((0x41 <=? c)%N && (c <=? 0x5A)%N) eqn:E; [|exact S].
  apply andb_true_iff in E. destruct E as [E1 E2].
  apply N.leb_le in E1, E2.
  rewrite (upper_not_space c E1 E2) in S. discriminate S.
Qed.

Lemma ascii_lower_lstrip (s : str) :
  ascii_lower (lstrip_with isspace s) = lstrip_with isspace (ascii_lower s).
Proof.
  induction s as [|c s IH]; [reflexivity|].
  cbn [lstrip_with ascii_lower map].
  rewrite ascii_lower_cp_isspace_eq.
  destruct (isspace c); [exact IH | reflexivity].
Qed.

Lemma ascii_lower_strip (s : str) :
  ascii_lower (strip s) = strip (ascii_lower s).
Proof.
  unfold strip, rstrip_with.
  rewrite <- ascii_lower_lstrip.
  unfold ascii_lower at 1. rewrite map_rev.
  fold (ascii_lower (lstrip_with isspace (rev (lstrip_with isspace s)))).
  rewrite ascii_lower_lstrip. unfold ascii_lower at 1.
  rewrite map_rev. reflexivity.
Qed.

Lemma normalize_ignores_case_witness :
  normalize ascii_lower (Some (lit "HTTPS://New.Example.com/Page"))
  = normalize ascii_lower (Some new_page).
Proof.
  apply (normalize_ignores_case ascii_lower
           (lit "HTTPS://New.Example.com/Page") new_page).
  - exact ascii_lower_strip.
  - discriminate.
  - discriminate.
  - reflexivity.
Defined.

(** ** RedirectChecker: the rows it can return *)

(** X13. A row returned by a check has one of four forms.  With a final
    URL: the "correct" text, and then the final URL and the target
    normalise alike; or the wrong-redirect text, which quotes the very
    URL of the Final URL column, and then they normalise differently;
    or the HTTP error text with a status code that is 400 or more.
    Without a final URL: the error text of a failed request. *)
Theorem produced_row_forms (lower : str -> str) (W : Type)
    (send : call -> W -> reply * W) (r : row) :
  produced lower send r ->
  (exists u, Final_URL r = Some u /\ Status r = status_correct /\
             normalize lower (Some u) = normalize lower (Target r)) \/
  (exists u, Final_URL r = Some u /\ Status r = status_wrong_redirect u /\
             normalize lower (Some u) <> normalize lower (Target r)) \/
  (exists u code, Final_URL r = Some u /\
                  Status r = status_http_error code /\ (400 <= code)%Z) \/
  (exists e, Final_URL r = None /\ Status r = status_error e).
Proof.
  intros Hr.
  destruct (produced_result_row lower W send r Hr) as [s [t [final ->]]].
  destruct final as [resp|e]; cbn [result_row].
  - destruct (Z.leb_spec 400 (status_code resp)) as [Hge|Hlt].
    + right. right. left. exists (url resp), (status_code resp).
      repeat split. exact Hge.
    + unfold str_neqb. destruct (str_eq_dec _ _) as [E|N].
      * left. exists (url resp). repeat split. exact E.
      * right. left. exists (url resp). repeat split. exact N.
  - right. right. right. exists e. split; reflexivity.
Qed.

Lemma produced_row_forms_witness :
  let r := (old_page, Some new_page, status_wrong_redirect new_other,
            Some new_other) in
  (exists u, Final_URL r = Some u /\ Status r = status_correct /\
             normalize ascii_lower (Some u)
             = normalize ascii_lower (Target r)) \/
  (exists u, Final_URL r = Some u /\ Status r = status_wrong_redirect u /\
             normalize ascii_lower (Some u)
             <> normalize ascii_lower (Target r)) \/
  (exists u code, Final_URL r = Some u /\
                  Status r = status_http_error code /\ (400 <= code)%Z) \/
  (exists e, Final_URL r = None /\ Status r = status_error e).
Proof.
  intros r.
  apply (produced_row_forms ascii_lower script scripted r).
  exists old_page, (Some new_page), [Answer (mkResponse new_other 200)].
  reflexivity.
Defined.

Lemma rstrip_slash_nil_iff (s : str) :
  rstrip (lit "/") s = [] <-> exists n, s = repeat slash n.
Proof.
  split.
  - intros E. destruct (rstrip_slash_split s) as [n Hn].
    rewrite E in Hn. exists n. exact Hn.
  - intros [n ->].
    change (repeat slash n) with ([] ++ repeat slash n).
    rewrite rstrip_slash_repeat. reflexivity.
Qed.

Lemma normalize_nil_iff (lower : str -> str) (u : str) :
  normalize lower (Some u) = [] <->
  u = [] \/ exists n, lower (strip u) = repeat slash n.
Proof.
  destruct u as [|c u'].
  - split; [left; reflexivity | reflexivity].
  - rewrite normalize_cons, rstrip_slash_nil_iff. split.
    + intros H. right. exact H.
    + intros [H|H]; [discriminate H | exact H].
Qed.

(** X14. A check with an absent or empty target does not fail; when its
    last reply is an HTTP response the row is Ok only if the status is
    below 400 and the final URL is empty or, trimmed and lower-cased,
    nothing but slashes.  Any other final URL gives a row that is not
    Ok. *)
Theorem empty_target_check (lower : str -> str) (W : Type)
    (send : call -> W -> reply * W) (source : str) (target : option str)
    (w : W) (resp : Response) :
  target = None \/ target = Some [] ->
  final_reply (trace_of (check lower send source target w))
  = Some (Answer resp) ->
  exists r,
    outcome_of (check lower send source target w) = Returned r /\
    (statusKind r = Some Ok <->
     (status_code resp < 400)%Z /\
     (url resp = [] \/
      exists n, lower (strip (url resp)) = repeat slash n)).
Proof.
  intros Ht Hfinal.
  destruct (check_redirect_result lower W send source target w)
    as [final [Hf Ho]].
  rewrite Hf in Hfinal. injection Hfinal as ->.
  exists (result_row lower source target (Answer resp)).
  split; [exact Ho|].
  destruct (result_row_classification lower source target (Answer resp))
    as [Hk _].
  rewrite Hk. cbn [classification].
  assert (Hnil : normalize lower target = [])
    by (destruct Ht as [-> | ->]; reflexivity).
  rewrite Hnil, <- normalize_nil_iff.
  destruct (Z.leb_spec 400 (status_code resp)) as [Hge|Hlt].
  - cbn [fst]. split; [discriminate | lia].
  - destruct (str_eq_dec _ _) as [E|N]; cbn [fst].
    + split; [intros _; split; assumption | reflexivity].
    + split; [discriminate | intros [_ E]; contradiction].
Qed.

Lemma empty_target_check_witness :
  exists r,
    outcome_of (check ascii_lower scripted old_page None
                  [Answer (mkResponse new_page 200)]) = Returned r /\
    (statusKind r = Some Ok <->
     (200 < 400)%Z /\
     (new_page = [] \/
      exists n, ascii_lower (strip new_page) = repeat slash n)).
Proof.
  apply (empty_target_check ascii_lower script scripted old_page None
           [Answer (mkResponse new_page 200)] (mkResponse new_page 200)).
  - left. reflexivity.
  - reflexivity.
Defined.
